(** * yukkuri-lib: script parser, transform calculator and voice alignment

    A shallow embedding of [yaml2items.py] and of the parts of [project.py]
    it uses, followed by the properties of the alignment and synthesis
    engine.

    Conventions.
    - Python [int] is [Z].  A Python [float] that the script or the project
      holds is a rational [Q]; the floats that the transform calculator
      computes are IEEE 754 doubles ([float]): every operation rounds to the
      nearest double, ties to even, and overflows to an infinity.  The sign
      of a zero is not kept (0.0 and -0.0 compare equal).
    - Python [str] is [string].
    - A raised exception is a value of [exn]; a computation that may raise
      has type [result A].
    - The conversions that belong to the Python runtime and to pydantic's
      field coercion ([str()] of a scalar, [float()] of a string,
      [str.strip()]) are the fields of the class [Python]; the files, the
      images and the process environment are the fields of [World]. *)

From Stdlib Require Import ZArith QArith List String Ascii Bool Lia.
From Stdlib Require Import Sorted Qround Qpower Qabs Lqa.
Import ListNotations.

Local Open Scope string_scope.
Local Open Scope Z_scope.

(** ** Exceptions and the error monad *)

Record VoiceSpec := mkVoiceSpec {
  character : string;
  text : string
}.

Inductive exn :=
| TypeError                          (* [in] applied to a non-iterable *)
| ValidationError (model : string)   (* pydantic: the model that rejected its input *)
| AssertionError
| AttributeError
| ZeroDivisionError
| OverflowError
| NameError (name : string)
| OSError (path : string)            (* a file that cannot be read *)
| NoMatchingVoiceItem (spec : option VoiceSpec).
                                     (* ValueError(f"No matching voice item for {spec}") *)

Inductive result (A : Type) :=
| Ok (a : A)
| Raise (e : exn).
Arguments Ok {A} a.
Arguments Raise {A} e.

Definition bind {A B} (m : result A) (k : A -> result B) : result B :=
  match m with
  | Ok a => k a
  | Raise e => Raise e
  end.

Notation "x <- m ;; k" := (bind m (fun x => k))
  (at level 61, m at next level, right associativity).
Notation "m ;;; k" := (bind m (fun _ => k))
  (at level 61, right associativity).

Definition py_assert (b : bool) : result unit :=
  if b then Ok tt else Raise AssertionError.

(** ** Script values, as [yaml.safe_load] returns them *)

#[warnings="-register-all"]
Inductive pyval :=
| PyNone
| PyBool (b : bool)
| PyInt (n : Z)
| PyFloat (x : Q)
| PyStr (s : string)
| PyList (elems : list pyval)
| PyDict (entries : list (string * pyval)). (* a dict, in insertion order *)

(** A script line is any loaded value.  [LScalar], [LSeq] and [LMap] name
    the shape of a line: a scalar (PyNone is a blank entry), a list, a
    mapping. *)
Definition line := pyval.

Abbreviation LScalar v := (v : line) (only parsing).
Abbreviation LSeq := PyList (only parsing).
Abbreviation LMap := PyDict (only parsing).

Class Python := {
  py_str : pyval -> string;           (* str(v) of a bool, int or float *)
  py_float : string -> option Q;      (* float(s); None when it raises ValueError *)
  py_strip : string -> string         (* s.strip() *)
}.

(** [needle in hay] on two strings. *)
Fixpoint str_contains (needle hay : string) : bool :=
  String.prefix needle hay ||
  match hay with
  | EmptyString => false
  | String _ rest => str_contains needle rest
  end.

Definition is_str (k : string) (v : pyval) : bool :=
  match v with
  | PyStr s => String.eqb k s
  | _ => false
  end.

Definition has_key (k : string) (m : list (string * pyval)) : bool :=
  existsb (fun kv => String.eqb k (fst kv)) m.

Fixpoint get (k : string) (m : list (string * pyval)) : option pyval :=
  match m with
  | [] => None
  | (k', v) :: rest => if String.eqb k k' then Some v else get k rest
  end.

(** [k in line]: substring test on a string, membership on a list, key
    membership on a dict, TypeError otherwise. *)
Definition py_in (k : string) (l : line) : result bool :=
  match l with
  | PyStr s => Ok (str_contains k s)
  | PyList elems => Ok (existsb (is_str k) elems)
  | PyDict m => Ok (has_key k m)
  | _ => Raise TypeError
  end.

(** [not line]: truthiness of a script line. *)
Definition line_falsy (l : line) : bool :=
  match l with
  | PyNone => true
  | PyBool b => negb b
  | PyInt n => n =? 0
  | PyFloat x => Qeq_bool x 0
  | PyStr s => String.eqb s ""
  | PyList elems => match elems with [] => true | _ => false end
  | PyDict m => match m with [] => true | _ => false end
  end.

(** ** Cue specifications ([ItemSpec], [ImageSpec], [TextSpec]) *)

Record ItemSpec := mkItemSpec {
  zoom : option Q;
  y : option Q;
  start_voice_spec : option VoiceSpec;
  end_voice_spec : option VoiceSpec
}.

Inductive Spec :=
| ImageSpec (base : ItemSpec) (image : string)
| TextSpec (base : ItemSpec) (text_ : string) (font_size : option Q).

Definition base_of (s : Spec) : ItemSpec :=
  match s with
  | ImageSpec b _ => b
  | TextSpec b _ _ => b
  end.

Definition with_base (s : Spec) (b : ItemSpec) : Spec :=
  match s with
  | ImageSpec _ i => ImageSpec b i
  | TextSpec _ t f => TextSpec b t f
  end.

Definition set_start (s : Spec) (v : option VoiceSpec) : Spec :=
  let b := base_of s in
  with_base s (mkItemSpec (zoom b) (y b) v (end_voice_spec b)).

Definition set_end (s : Spec) (v : option VoiceSpec) : Spec :=
  let b := base_of s in
  with_base s (mkItemSpec (zoom b) (y b) (start_voice_spec b) v).

Definition is_some {A} (o : option A) : bool :=
  match o with Some _ => true | None => false end.

(** The characters of a string held as UTF-8: a byte 10xxxxxx continues
    the character before it. *)
Definition is_continuation (c : ascii) : bool :=
  match c with
  | Ascii _ _ _ _ _ _ b6 b7 => b7 && negb b6
  end.

Fixpoint split_chars (s : string) : list string :=
  match s with
  | EmptyString => []
  | String c rest =>
      match split_chars rest with
      | [] => [String c EmptyString]
      | first :: others =>
          match rest with
          | String c' _ =>
              if is_continuation c' then String c first :: others
              else String c EmptyString :: first :: others
          | EmptyString => [String c EmptyString]
          end
      end
  end.

Section Parser.
Context {py : Python}.

(** pydantic field validation, for the values a mapping can hold. *)

Definition validate_str (model : string) (v : option pyval) : result string :=
  match v with
  | None => Raise (ValidationError model)          (* field required *)
  | Some PyNone => Raise (ValidationError model)   (* none is not an allowed value *)
  | Some (PyStr s) => Ok s
  | Some (PyList _) => Raise (ValidationError model)   (* str type expected *)
  | Some (PyDict _) => Raise (ValidationError model)
  | Some v => Ok (py_str v)
  end.

Definition validate_opt_float (model : string) (v : option pyval)
  : result (option Q) :=
  match v with
  | None => Ok None
  | Some PyNone => Ok None
  | Some (PyBool b) => Ok (Some (if b then 1%Q else 0%Q))
  | Some (PyInt n) => Ok (Some (inject_Z n))
  | Some (PyFloat x) => Ok (Some x)
  | Some (PyStr s) =>
      match py_float s with
      | Some x => Ok (Some x)
      | None => Raise (ValidationError model)
      end
  | Some (PyList _) => Raise (ValidationError model)
  | Some (PyDict _) => Raise (ValidationError model)
  end.

(** The key and value that [dict()] takes from one element of a list: the
    two elements of a list, the two characters of a string, the two keys of
    a mapping.  None when [dict()] raises, or when the key is not a string
    (the constructor call then raises for a keyword that is not a string). *)
Definition dict_item (e : pyval) : option (string * pyval) :=
  match e with
  | PyList [PyStr k; v] => Some (k, v)
  | PyStr s =>
      match split_chars s with
      | [c1; c2] => Some (c1, PyStr c2)
      | _ => None
      end
  | PyDict [(k1, _); (k2, _)] => Some (k1, PyStr k2)
  | _ => None
  end.

Fixpoint dict_items (elems : list pyval) : option (list (string * pyval)) :=
  match elems with
  | [] => Some []
  | e :: rest =>
      match dict_item e, dict_items rest with
      | Some kv, Some kvs => Some (kv :: kvs)
      | _, _ => None
      end
  end.

(** The dict that pydantic makes of the value given for a field whose type
    is a model: a dict as it is, a list through [dict()], where a later
    entry replaces an earlier one with the same key (so the entries are kept
    latest first, for [get]). *)
Definition as_dict (v : pyval) : option (list (string * pyval)) :=
  match v with
  | PyDict d => Some d
  | PyList elems => option_map (@rev _) (dict_items elems)
  | _ => None
  end.

(** An [Optional[VoiceSpec]] field accepts a missing or None value, and a
    value that makes a dict with a character and a text; the text is
    stripped by the validator of [VoiceSpec]. *)
Definition validate_opt_voice (model : string) (v : option pyval)
  : result (option VoiceSpec) :=
  match v with
  | None => Ok None
  | Some PyNone => Ok None
  | Some v =>
      match as_dict v with
      | None => Raise (ValidationError model)
      | Some d =>
          c <- validate_str model (get "character" d) ;;
          t <- validate_str model (get "text" d) ;;
          Ok (Some (mkVoiceSpec c (py_strip t)))
      end
  end.

(** [VoiceSpec(character=key, text=value)], with the validator that strips
    the text. *)
Definition new_VoiceSpec (key : string) (value : pyval) : result VoiceSpec :=
  t <- validate_str "VoiceSpec" (Some value) ;;
  Ok (mkVoiceSpec key (py_strip t)).

Definition parse_ItemSpec (model : string) (m : list (string * pyval))
  : result ItemSpec :=
  z <- validate_opt_float model (get "zoom" m) ;;
  yy <- validate_opt_float model (get "y" m) ;;
  s <- validate_opt_voice model (get "start_voice_spec" m) ;;
  e <- validate_opt_voice model (get "end_voice_spec" m) ;;
  Ok (mkItemSpec z yy s e).

(** [ImageSpec.parse_obj(line)]: anything that is not a dict is first passed
    to [dict()], which fails on every line that reaches this call (a string,
    or a list holding the string "image" or "text"). *)
Definition ImageSpec_parse_obj (l : line) : result Spec :=
  match l with
  | LMap m =>
      b <- parse_ItemSpec "ImageSpec" m ;;
      i <- validate_str "ImageSpec" (get "image" m) ;;
      Ok (ImageSpec b i)
  | _ => Raise (ValidationError "ImageSpec")
  end.

Definition TextSpec_parse_obj (l : line) : result Spec :=
  match l with
  | LMap m =>
      b <- parse_ItemSpec "TextSpec" m ;;
      t <- validate_str "TextSpec" (get "text" m) ;;
      f <- validate_opt_float "TextSpec" (get "font_size" m) ;;
      Ok (TextSpec b t f)
  | _ => Raise (ValidationError "TextSpec")
  end.

(** *** [list_item_specs]

    The generator's local variables, and one iteration of its loop.  An
    iteration yields at most one item. *)

Record parser_state := mkState {
  current_item : option Spec;
  last_voice_spec : option VoiceSpec
}.

Definition initial_state : parser_state := mkState None None.

(** Lines 138-146: finish the current item before a new marker. *)
Definition finalize_at_marker (cur : Spec) (last : option VoiceSpec)
  : result Spec :=
  let cur := if is_some last then set_end cur last else cur in
  let cur := if negb (is_some (end_voice_spec (base_of cur)))
             then set_end cur (start_voice_spec (base_of cur)) else cur in
  py_assert (is_some (start_voice_spec (base_of cur))
             && is_some (end_voice_spec (base_of cur))) ;;;
  Ok cur.

(** Lines 164-168: finish the current item at the end of the script. *)
Definition finalize_at_end (cur : Spec) (last : option VoiceSpec)
  : result Spec :=
  let cur := if is_some last then set_end cur last else cur in
  py_assert (is_some (start_voice_spec (base_of cur))
             && is_some (end_voice_spec (base_of cur))) ;;;
  Ok cur.

(** What one iteration does: the item it yields (if any), then either the
    state for the next iteration or the exception that ends the generator. *)
Record step_out := mkOut {
  yielded : option Spec;
  next : result parser_state
}.

Definition marker_step (st : parser_state) (l : line) (is_image : bool)
  : step_out :=
  let parse := if is_image then ImageSpec_parse_obj l
               else TextSpec_parse_obj l in
  let start_new := c <- parse ;; Ok (mkState (Some c) None) in
  match current_item st with
  | Some cur =>
      match finalize_at_marker cur (last_voice_spec st) with
      | Ok done => mkOut (Some done) start_new
      | Raise e => mkOut None (Raise e)
      end
  | None => mkOut None start_new
  end.

Definition voice_step (st : parser_state) (l : line) : step_out :=
  match current_item st with
  | None => mkOut None (Ok st)
  | Some cur =>
      if line_falsy l then mkOut None (Ok st) else
      match l with
      | LMap ((key, value) :: _) =>
          mkOut None
            (voice_spec <- new_VoiceSpec key value ;;
             if negb (is_some (start_voice_spec (base_of cur)))
             then Ok (mkState (Some (set_start cur (Some voice_spec)))
                              (last_voice_spec st))
             else Ok (mkState (Some cur) (Some voice_spec)))
      | _ => mkOut None (Ok st)
      end
  end.

Definition step (st : parser_state) (l : line) : step_out :=
  match py_in "image" l with
  | Raise e => mkOut None (Raise e)
  | Ok true => marker_step st l true
  | Ok false =>
      match py_in "text" l with
      | Raise e => mkOut None (Raise e)
      | Ok true => marker_step st l false
      | Ok false => voice_step st l
      end
  end.

(** The run of the generator: the items yielded, in order, and how it
    ended. *)
Record run := mkRun {
  emitted : list Spec;
  ending : option exn
}.

Definition finish (st : parser_state) : run :=
  match current_item st with
  | None => mkRun [] None
  | Some cur =>
      match finalize_at_end cur (last_voice_spec st) with
      | Ok done => mkRun [done] None
      | Raise e => mkRun [] (Some e)
      end
  end.

Definition opt_cons {A} (o : option A) (l : list A) : list A :=
  match o with Some a => a :: l | None => l end.

Fixpoint run_from (st : parser_state) (lines : list line) : run :=
  match lines with
  | [] => finish st
  | l :: rest =>
      let o := step st l in
      match next o with
      | Raise e => mkRun (opt_cons (yielded o) []) (Some e)
      | Ok st' =>
          let r := run_from st' rest in
          mkRun (opt_cons (yielded o) (emitted r)) (ending r)
      end
  end.

Definition list_item_specs (lines : list line) : run :=
  run_from initial_state lines.


End Parser.

(** ** The project document ([project.py]) *)

Inductive ItemType := Image | Shape | Tachie | Text | Voice.

Record Animation := mkAnimation {
  From : Q;
  To : Q;
  AnimationType : string;
  Span : Q
}.

(** [Animation()] : every field at its default. *)
Definition Animation_default : Animation :=
  mkAnimation 0 0 "なし" 0.

(** [Animation.const(value)] is [cls(From=value)]. *)
Definition const (value : Q) : Animation :=
  mkAnimation value (To Animation_default)
              (AnimationType Animation_default) (Span Animation_default).

(** The fields of [AbstractItem] and [ItemBase] that the program reads or
    sets; the others (Blend, FadeIn, VideoEffects, ...) pass through
    untouched and are left out. *)
Record ItemBase := mkItemBase {
  Layer : Z;
  X : Animation;
  Y : Animation;
  Opacity : Animation;
  Zoom : Animation;
  Rotation : Animation;
  Frame : Z;
  Length : Z
}.

Record VoiceItem := mkVoiceItem {
  voice_base : ItemBase;
  CharacterName : string;
  Serif : string
}.

Inductive Item :=
| ImageItem (b : ItemBase) (FilePath : string)
| ShapeItem (b : ItemBase)
| TachieItem (b : ItemBase) (CharacterName : string)
| TextItem (b : ItemBase) (FontSize : Animation) (Text : string)
| VoiceItem_ (v : VoiceItem).

Definition item_base (i : Item) : ItemBase :=
  match i with
  | ImageItem b _ | ShapeItem b | TachieItem b _ | TextItem b _ _ => b
  | VoiceItem_ v => voice_base v
  end.

Definition item_type (i : Item) : ItemType :=
  match i with
  | ImageItem _ _ => Image
  | ShapeItem _ => Shape
  | TachieItem _ _ => Tachie
  | TextItem _ _ _ => Text
  | VoiceItem_ _ => Voice
  end.

Definition set_Layer (b : ItemBase) (l : Z) : ItemBase :=
  mkItemBase l (X b) (Y b) (Opacity b) (Zoom b) (Rotation b) (Frame b) (Length b).

Definition with_item_base (i : Item) (b : ItemBase) : Item :=
  match i with
  | ImageItem _ p => ImageItem b p
  | ShapeItem _ => ShapeItem b
  | TachieItem _ c => TachieItem b c
  | TextItem _ f t => TextItem b f t
  | VoiceItem_ v => VoiceItem_ (mkVoiceItem b (CharacterName v) (Serif v))
  end.

Record VideoInfo := mkVideoInfo {
  FPS : Z;
  Hz : Z;
  Width : Z;
  Height : Z
}.

(** An element of [Timeline.Items]: a parsed model, or the dict that [main]
    appends for a new item. *)
Inductive entry :=
| Model (i : Item)
| Dict (i : Item).

Record Timeline := mkTimeline {
  Timeline_VideoInfo : VideoInfo;
  Items : list entry
}.

Record Project := mkProject {
  Project_Timeline : Timeline
}.

(** ** The outside of the program

    The files, the images and the process environment. *)
Record World := mkWorld {
  read_yaml : string -> result (list line);
      (* yaml.safe_load(path.read_text()) *)
  read_project : string -> result Project;
      (* Project.parse_obj(json.loads(path.read_text(...))) *)
  image_size : string -> result (Z * Z);
      (* Image.open(path.resolve()).size *)
  environ : string -> option string;
  parent : string -> string
      (* Path.parent *)
}.

(** *** [VoiceSpec.matches] *)

Definition matches (self : VoiceSpec) (other : VoiceItem) : bool :=
  if negb (String.eqb (character self) (CharacterName other)) then false
  else if negb (String.eqb (text self) (Serif other)) then false
  else true.

(** ** Doubles

    The arithmetic of Python floats on the values that the transform
    calculator computes. *)

Inductive float :=
| Finite (q : Q)
| Inf (negative : bool)
| NaN.

Definition pow2 (e : Z) : Q := Qpower 2 e.

(** The integer k with 2^k <= x < 2^(k+1), for x > 0. *)
Definition floor_log2 (x : Q) : Z :=
  let k := Z.log2 (Qnum x) - Z.log2 (Zpos (Qden x)) in
  if Qle_bool (pow2 k) x then k else k - 1.

(** The nearest integer, a tie going to the even one. *)
Definition round_half_even (q : Q) : Z :=
  let f := Qfloor q in
  match Qcompare (q - inject_Z f) (1 # 2) with
  | Lt => f
  | Gt => f + 1
  | Eq => if Z.even f then f else f + 1
  end.

(** The double nearest to x > 0: 53 significant bits, the exponent of the
    last bit at least -1074, and an infinity from 2^1024 on. *)
Definition round_pos (x : Q) : float :=
  let e := Z.max (floor_log2 x - 52) (-1074) in
  let y := (inject_Z (round_half_even (x / pow2 e)) * pow2 e)%Q in
  if Qle_bool (pow2 1024) y then Inf false else Finite y.

Definition fneg (x : float) : float :=
  match x with
  | Finite q => Finite (- q)
  | Inf s => Inf (negb s)
  | NaN => NaN
  end.

Definition round64 (x : Q) : float :=
  match Qcompare x 0 with
  | Eq => Finite 0
  | Gt => round_pos x
  | Lt => fneg (round_pos (- x))
  end.

Definition Qltb (a b : Q) : bool := negb (Qle_bool b a).

(** An infinity times, or divided by, the finite y. *)
Definition sign_of (y : Q) (s : bool) : float :=
  match Qcompare y 0 with
  | Eq => NaN
  | Gt => Inf s
  | Lt => Inf (negb s)
  end.

Definition fmul (a b : float) : float :=
  match a, b with
  | Finite x, Finite y => round64 (x * y)
  | Finite x, Inf s => sign_of x s
  | Inf s, Finite y => sign_of y s
  | Inf s, Inf t => Inf (xorb s t)
  | _, _ => NaN
  end.

(** Float division raises on a zero divisor. *)
Definition fdiv (a b : float) : result float :=
  match a, b with
  | Finite x, Finite y =>
      if Qeq_bool y 0 then Raise ZeroDivisionError else Ok (round64 (x / y))
  | Inf s, Finite y =>
      if Qeq_bool y 0 then Raise ZeroDivisionError else Ok (sign_of y s)
  | Finite x, Inf _ => Ok (Finite 0)
  | _, _ => Ok NaN
  end.

(** [a < b] on two floats. *)
Definition flt (a b : float) : bool :=
  match a, b with
  | Finite x, Finite y => Qltb x y
  | Inf true, Inf true => false
  | Inf true, (Finite _ | Inf false) => true
  | Finite _, Inf false => true
  | _, _ => false
  end.

(** [x < n] for a float and an int: Python compares the exact values. *)
Definition flt_int (x : float) (n : Z) : bool :=
  match x with
  | Finite q => Qltb q (inject_Z n)
  | Inf negative => negative
  | NaN => false
  end.

(** Truthiness of a float: only zero is false. *)
Definition float_truthy (x : float) : bool :=
  match x with
  | Finite q => negb (Qeq_bool q 0)
  | _ => true
  end.

(** [float(n)], as an int is converted for an operation with a float. *)
Definition float_of_int (n : Z) : result float :=
  match round64 (inject_Z n) with
  | Finite q => Ok (Finite q)
  | _ => Raise OverflowError
  end.

(** True division of two ints: the quotient, rounded once. *)
Definition true_div (a b : Z) : result float :=
  if b =? 0 then Raise ZeroDivisionError
  else match round64 (inject_Z a / inject_Z b) with
       | Finite q => Ok (Finite q)
       | _ => Raise OverflowError
       end.

(** Python's [min(a, b)]: [b] when [b < a], else [a]. *)
Definition py_min (a b : float) : float := if flt b a then b else a.

(** [zoom * size / 100], as lines 127 and 128 compute it. *)
Definition scaled (zoom : float) (size : Z) : result float :=
  f <- float_of_int size ;;
  fdiv (fmul zoom f) (Finite 100).

(** *** [attrs_from_spec] and [from_spec] *)

(** Truthiness of an optional float: None and 0.0 are false. *)
Definition truthy (o : option Q) : bool :=
  match o with
  | Some x => negb (Qeq_bool x 0)
  | None => false
  end.

Definition opt_default (o : option Q) : Q :=
  match o with Some x => x | None => 0 end.

(** The dict built by [ItemBase.attrs_from_spec]; an absent key is None. *)
Record attrs := mkAttrs {
  attr_Layer : Z;
  attr_Frame : Z;
  attr_Length : Z;
  attr_Zoom : option Animation;
  attr_Y : option Animation
}.

Definition ItemBase_attrs_from_spec (spec : ItemSpec) (layer : Z)
    (start_item end_item : ItemBase) : attrs :=
  mkAttrs layer
          (Frame start_item)
          (Frame end_item + Length end_item - Frame start_item)
          (if truthy (zoom spec) then Some (const (opt_default (zoom spec)))
           else None)
          (if truthy (y spec) then Some (const (opt_default (y spec)))
           else None).

Definition or_default (o : option Animation) (d : Animation) : Animation :=
  match o with Some a => a | None => d end.

(** The constructor call on the attrs dict, for the shared fields: a key
    that is absent takes the field's default. *)
Definition ItemBase_init (a : attrs) : ItemBase :=
  mkItemBase (attr_Layer a)
             Animation_default
             (or_default (attr_Y a) Animation_default)
             (const 100)
             (or_default (attr_Zoom a) (const 100))
             Animation_default
             (attr_Frame a)
             (attr_Length a).

(** The dict built by [ImageItem.attrs_from_spec]: the entries of
    [ItemBase.attrs_from_spec] and FilePath.  The zoom and the y of an image
    cue are doubles by now (lines 83-86 of [yaml2items.py] have filled them
    in); Zoom and Y hold the value given to [Animation.const] and are absent
    when that value is false. *)
Record image_attrs := mkImageAttrs {
  image_Layer : Z;
  image_Frame : Z;
  image_Length : Z;
  image_Zoom : option float;
  image_Y : option float;
  image_FilePath : string * string
      (* PureWindowsPath(project_root / spec.image) *)
}.

Definition ImageItem_attrs_from_spec (project_root : string)
    (zoom_ y_ : float) (image : string) (layer : Z)
    (start_item end_item : ItemBase) : image_attrs :=
  mkImageAttrs layer
               (Frame start_item)
               (Frame end_item + Length end_item - Frame start_item)
               (if float_truthy zoom_ then Some zoom_ else None)
               (if float_truthy y_ then Some y_ else None)
               (project_root, image).

(** The constructor call on the attrs of an image item: FilePath is a str
    field and the value under that key is a path object, which the str
    validator rejects, so the call raises and no image item is built. *)
Definition ImageItem_init (a : image_attrs) : result Item :=
  Raise (ValidationError "ImageItem").

Definition ImageItem_from_spec (project_root : string)
    (zoom_ y_ : float) (image : string) (layer : Z)
    (start_item end_item : ItemBase) : result Item :=
  ImageItem_init
    (ImageItem_attrs_from_spec project_root zoom_ y_ image layer
       start_item end_item).

Definition TextItem_from_spec (spec : ItemSpec) (text_ : string)
    (font_size : option Q) (layer : Z) (start_item end_item : ItemBase) : Item :=
  let a := ItemBase_attrs_from_spec spec layer start_item end_item in
  TextItem (ItemBase_init a)
           (if truthy font_size then const (opt_default font_size)
            else const 48)
           text_.

(** ** The transform calculator *)

Record ImageTransformation := mkTransform {
  transform_zoom : float;
  transform_y : float
}.

(** The body of [calculate_image_transformation] after [image.size] is
    read. *)
Definition transformation_of_size (image_width image_height : Z)
    (video_info : VideoInfo) (bottom_margin margin : Z)
  : result ImageTransformation :=
  b <- float_of_int bottom_margin ;;
  let ty := fmul b (Finite (- (1 # 2))) in
  width_zoom <- true_div (Width video_info - margin) image_width ;;
  height_zoom <- true_div (Height video_info - margin - bottom_margin)
                          image_height ;;
  let tz := fmul (Finite 100) (py_min width_zoom height_zoom) in
  scaled_height <- scaled tz image_height ;;
  py_assert (flt_int scaled_height (Height video_info - bottom_margin)) ;;;
  scaled_width <- scaled tz image_width ;;
  py_assert (flt_int scaled_width (Width video_info)) ;;;
  Ok (mkTransform tz ty).

Definition calculate_image_transformation (w : World) (image_path : string)
    (video_info : VideoInfo) (bottom_margin margin : Z)
  : result ImageTransformation :=
  size <- image_size w image_path ;;
  transformation_of_size (fst size) (snd size) video_info bottom_margin margin.

(** ** [main]: the alignment loop *)

(** [while voice_items and not spec.matches(voice_items[0]): voice_items.pop(0)].
    The attribute [matches] is looked up on [spec] only when the queue is not
    empty; on None that raises AttributeError. *)
Fixpoint scan (spec : option VoiceSpec) (voice_items : list VoiceItem)
  : result (list VoiceItem) :=
  match voice_items with
  | [] => Ok []
  | v :: rest =>
      match spec with
      | None => Raise AttributeError
      | Some s => if matches s v then Ok voice_items else scan spec rest
      end
  end.

(** Lines 61-78: the two scans for one cue.  Returns the start item, the
    end item and the queue that is left. *)
Definition match_cue (spec : ItemSpec) (voice_items : list VoiceItem)
  : result (VoiceItem * VoiceItem * list VoiceItem) :=
  voice_items <- scan (start_voice_spec spec) voice_items ;;
  match voice_items with
  | [] => Raise (NoMatchingVoiceItem (start_voice_spec spec))
  | start_voice_item :: _ =>
      voice_items <- scan (end_voice_spec spec) voice_items ;;
      match voice_items with
      | [] => Raise (NoMatchingVoiceItem (end_voice_spec spec))
      | end_voice_item :: voice_items => 
          Ok (start_voice_item, end_voice_item, voice_items)
      end
  end.

Definition is_none {A} (o : option A) : bool := negb (is_some o).

(** Lines 79-93: the new item for a matched cue. *)
Definition synthesize (w : World) (project_root : string)
    (video_info : VideoInfo) (layer : Z) (current_item_spec : Spec)
    (start_voice_item end_voice_item : VoiceItem) : result Item :=
  match current_item_spec with
  | ImageSpec spec image =>
      transform <- calculate_image_transformation w image video_info 320 20 ;;
      let zoom_ := match zoom spec with
                   | None => transform_zoom transform
                   | Some z => Finite z
                   end in
      let y_ := match y spec with
                | None => transform_y transform
                | Some v => Finite v
                end in
      ImageItem_from_spec project_root zoom_ y_ image layer
        (voice_base start_voice_item) (voice_base end_voice_item)
  | TextSpec spec text_ font_size =>
      Ok (TextItem_from_spec spec text_ font_size layer
            (voice_base start_voice_item) (voice_base end_voice_item))
  end.

(** One iteration of the loop at line 59, after the pop of line 60. *)
Definition align_one (w : World) (project_root : string)
    (video_info : VideoInfo) (layer : Z) (current_item_spec : Spec)
    (voice_items : list VoiceItem) : result (Item * list VoiceItem) :=
  m <- match_cue (base_of current_item_spec) voice_items ;;
  let '(start_voice_item, end_voice_item, voice_items) := m in
  new_item <- synthesize w project_root video_info layer current_item_spec
                start_voice_item end_voice_item ;;
  Ok (new_item, voice_items).

(** The loop [while len(item_specs) and len(voice_items)]: the items it
    appends to [project.Timeline.Items], in order. *)
Fixpoint align (w : World) (project_root : string) (video_info : VideoInfo)
    (layer : Z) (item_specs : list Spec) (voice_items : list VoiceItem)
  : result (list Item) :=
  match item_specs, voice_items with
  | [], _ => Ok []
  | _, [] => Ok []
  | current_item_spec :: item_specs, _ =>
      r <- align_one w project_root video_info layer current_item_spec
             voice_items ;;
      new_items <- align w project_root video_info layer item_specs (snd r) ;;
      Ok (fst r :: new_items)
  end.

(** ** [main] *)

(** Lines 53-55. *)
Definition shift_layer (layer : Z) (e : entry) : entry :=
  match e with
  | Model i =>
      if Layer (item_base i) >=? layer
      then Model (with_item_base i (set_Layer (item_base i) (Layer (item_base i) + 1)))
      else e
  | Dict _ => e
  end.

(** Lines 56-58. *)
Fixpoint voice_items_of (items : list entry) : list VoiceItem :=
  match items with
  | [] => []
  | Model (VoiceItem_ v) :: rest => v :: voice_items_of rest
  | _ :: rest => voice_items_of rest
  end.

(** One printed row of lines 97-103. *)
Record row := mkRow {
  row_type : ItemType;
  row_frame : Z;
  row_character : option string;   (* None prints as n/a *)
  row_file : option string
}.

Definition print_row (e : entry) : row :=
  match e with
  | Model i =>
      mkRow (item_type i) (Frame (item_base i))
            (match i with
             | TachieItem _ c => Some c
             | VoiceItem_ v => Some (CharacterName v)
             | _ => None
             end)
            (match i with ImageItem _ p => Some p | _ => None end)
  | Dict i => mkRow (item_type i) (Frame (item_base i)) None None
  end.

(** What a call of [main] leaves behind. *)
Record outcome := mkOutcome {
  raised : option exn;
  stdout : list row;
  written : option (string * Project)   (* the output path and the document *)
}.

Definition failed (e : exn) : outcome := mkOutcome (Some e) [] None.




(** Lines 52-106, from [layer = 3] on. *)
Definition main_from_layer (w : World) (project_root : string)
    (item_specs : list Spec) (project : Project) (output_path : string)
  : outcome :=
  let layer := 3 in
  let timeline := Project_Timeline project in
  let items := map (shift_layer layer) (Items timeline) in
  let voice_items := voice_items_of items in
  match align w project_root (Timeline_VideoInfo timeline) layer
              item_specs voice_items with
  | Raise e => failed e
  | Ok new_items =>
      let items := (items ++ map Dict new_items)%list in
      let project := mkProject (mkTimeline (Timeline_VideoInfo timeline) items) in
      mkOutcome None (map print_row items) (Some (output_path, project))
  end.

Section Main.
Context {py : Python}.


End Main.

(** ** The loop seen as a transition system

    [reaches] relates the queues at the top of the loop (line 59) at two
    moments of one run. *)

Inductive reaches (w : World) (project_root : string) (vi : VideoInfo)
    (layer : Z)
  : list Spec -> list VoiceItem -> list Spec -> list VoiceItem -> Prop :=
| reaches_here specs vs :
    reaches w project_root vi layer specs vs specs vs
| reaches_iter cur specs vs item vs' specs'' vs'' :
    vs <> [] ->
    align_one w project_root vi layer cur vs = Ok (item, vs') ->
    reaches w project_root vi layer specs vs' specs'' vs'' ->
    reaches w project_root vi layer (cur :: specs) vs specs'' vs''.

(** No item of the queue has the content of [ref]. *)
Definition no_match (ref : VoiceSpec) (vs : list VoiceItem) : Prop :=
  forall v, In v vs -> matches ref v = false.

(** The scan for the start reference, or the scan for the end reference
    after the start item was found, exhausts the queue; [ref] is the
    reference that was being looked for. *)
Definition exhausts (spec : ItemSpec) (vs : list VoiceItem) (ref : VoiceSpec)
  : Prop :=
  (start_voice_spec spec = Some ref /\ no_match ref vs) \/
  (exists s rest,
      scan (start_voice_spec spec) vs = Ok (s :: rest) /\
      end_voice_spec spec = Some ref /\ no_match ref (s :: rest)).

(** The reference that a voice item answers to. *)
Definition spec_of (v : VoiceItem) : VoiceSpec :=
  mkVoiceSpec (CharacterName v) (Serif v).

Definition content (v : VoiceItem) : string * string :=
  (CharacterName v, Serif v).

(** A cue that both references are set on. *)
Definition populated (s : Spec) : Prop :=
  start_voice_spec (base_of s) <> None /\ end_voice_spec (base_of s) <> None.

(** ** Example data *)

Definition canvas : VideoInfo := mkVideoInfo 60 48000 1920 1080.


(** A canvas whose width, 2^1100, is beyond the range of a float. *)
Definition vast_canvas : VideoInfo :=
  mkVideoInfo 60 48000 (2 ^ 1100) 1080.

Definition base_at (frame length : Z) : ItemBase :=
  mkItemBase 0 Animation_default Animation_default (const 100) (const 100)
             Animation_default frame length.

Definition voice (name serif : string) (frame length : Z) : VoiceItem :=
  mkVoiceItem (base_at frame length) name serif.

Definition vA := voice "reimu" "A" 0 30.
Definition vB := voice "marisa" "B" 40 30.
Definition vC := voice "reimu" "C" 100 30.
Definition vD := voice "marisa" "D" 140 20.
Definition vE := voice "reimu" "E" 200 10.

Definition text_cue (t : string) (s e : VoiceItem) : Spec :=
  TextSpec (mkItemSpec None None (Some (spec_of s)) (Some (spec_of e))) t None.

Definition demo_project : Project :=
  mkProject (mkTimeline canvas
    [Model (VoiceItem_ vA); Model (VoiceItem_ vB);
     Model (VoiceItem_ vC); Model (VoiceItem_ vD)]).

(** A script whose last cue has a single voice line, and one with two cues
    bounded by explicit lines. *)
Definition script_single_line_last : list line :=
  [LMap [("image", PyStr "a.png")]; LMap [("reimu", PyStr "A")]].

Definition script_two_cues : list line :=
  [LMap [("text", PyStr "one")]; LMap [("reimu", PyStr "A")];
   LMap [("marisa", PyStr "B")];
   LMap [("text", PyStr "two")]; LMap [("reimu", PyStr "C")];
   LMap [("marisa", PyStr "D")]].

Definition demo_world : World :=
  mkWorld
    (fun p => if String.eqb p "single.yaml" then Ok script_single_line_last
              else if String.eqb p "two.yaml" then Ok script_two_cues
              else Raise (OSError p))
    (fun p => if String.eqb p "draft.ymmp" then Ok demo_project
              else Raise (OSError p))
    (fun p => if String.eqb p "a.png" then Ok (800, 600)
              else if String.eqb p "empty.png" then Ok (0, 600)
              else if String.eqb p "dot.png" then Ok (1, 1)
              else if String.eqb p "flat.png" then Ok (800, 0)
              else Raise (OSError p))
    (fun _ => None)
    (fun _ => ".").

(** Runtime conversions for the examples: their strings carry no outer
    white space and their mappings hold no value that needs a coercion. *)
Definition plain_python : Python :=
  Build_Python (fun _ => "") (fun _ => None) (fun s => s).

(** ** [yaml2script.py]

    [main] writes one CSV row per voice line of the script.  A row is the
    list given to [writer.writerow]: the name and the stripped message. *)

Section Script.
Context {py : Python}.

(** [message.strip()]: only a string has the method. *)
Definition message_strip (message : pyval) : result string :=
  match message with
  | PyStr s => Ok (py_strip s)
  | _ => Raise AttributeError
  end.

(** Lines 14-21, for one line: the row written, if any. *)
Definition script_row (l : line) : result (option (string * string)) :=
  match l with
  | PyStr _ => Ok None
  | PyDict m =>
      if has_key "image" m || has_key "text" m then Ok None
      else
        py_assert (Nat.eqb (List.length m) 1) ;;;
        match m with
        | (name, message) :: _ =>
            s <- message_strip message ;;
            Ok (Some (name, s))
        | [] => Raise AssertionError
        end
  | _ => Ok None
  end.

(** The rows written to stdout, in order, and how the loop ended. *)
Record csv_run := mkCsv {
  csv_rows : list (string * string);
  csv_ending : option exn
}.

Fixpoint yaml2script (lines : list line) : csv_run :=
  match lines with
  | [] => mkCsv [] None
  | l :: rest =>
      match script_row l with
      | Raise e => mkCsv [] (Some e)
      | Ok row =>
          let r := yaml2script rest in
          mkCsv (opt_cons row (csv_rows r)) (csv_ending r)
      end
  end.

End Script.

(** ** Vocabulary of the further properties *)

(** The test of line 137 of [yaml2items.py] holds for the line. *)
Definition is_marker (l : line) : bool :=
  match py_in "image" l with
  | Ok true => true
  | Ok false => match py_in "text" l with Ok true => true | _ => false end
  | Raise _ => false
  end.

(** The test of line 137 is evaluated without an error and fails. *)
Definition not_marker (l : line) : Prop :=
  py_in "image" l = Ok false /\ py_in "text" l = Ok false.

(** The number of cues that are started and not yet yielded. *)
Definition pending (st : parser_state) : nat :=
  if is_some (current_item st) then 1 else 0.

Definition marker_count (lines : list line) : nat :=
  List.length (filter is_marker lines).

(** The reference that the parser builds from the line [{name: message}]. *)
Definition reference_of {py : Python} (nm : string * string) : VoiceSpec :=
  mkVoiceSpec (fst nm) (py_strip (snd nm)).

(** A script line [{name: message}]. *)
Definition voice_line (nm : string * string) : line :=
  LMap [(fst nm, PyStr (snd nm))].

Definition speaker_name (nm : string * string) : Prop :=
  fst nm <> "image" /\ fst nm <> "text".

Definition entry_item (e : entry) : Item :=
  match e with Model i | Dict i => i end.

Definition is_model (e : entry) : Prop :=
  match e with Model _ => True | Dict _ => False end.

Definition frame_le (a b : VoiceItem) : Prop :=
  Frame (voice_base a) <= Frame (voice_base b).

(** ** Vocabulary of the rounding analysis *)

(** Half the distance from 1 to the next double. *)
Definition eps64 : Q := pow2 (-53).

(** Any x with 2^-200 <= |x| <= 2^200, or x = 0: rounding stays finite, keeps
    the sign and moves x by at most the factor 1 +- eps64. *)
Definition small (x : Q) : Prop :=
  (x == 0 \/ (pow2 (-200) <= x /\ x <= pow2 200) \/
             (pow2 (-200) <= - x /\ - x <= pow2 200))%Q.

(** [x] is zero or 2^lo <= |x| <= 2^hi. *)
Definition mag (x : Q) (lo hi : Z) : Prop :=
  (x == 0 \/ (pow2 lo <= x /\ x <= pow2 hi) \/
             (pow2 lo <= - x /\ - x <= pow2 hi))%Q.

(** [y] is [x] up to the factors [lo] and [hi], with the same sign. *)
Definition appr (lo hi y x : Q) : Prop :=
  ((x == 0 -> y == 0) /\
   (0 < x -> x * lo <= y /\ y <= x * hi) /\
   (x < 0 -> x * hi <= y /\ y <= x * lo))%Q.

Definition lo1 : Q := (1 - eps64)%Q.

Definition hi1 : Q := (1 + eps64)%Q.

(** * Properties *)

(** ** Animation.const *)

(** C6 (as the code has it): for every value v, [Animation.const v] has
    From equal to v, and To, AnimationType and Span at their defaults (To is
    0.0), so From equals To exactly when v is 0; and Zoom, Y, Opacity and
    FontSize of a synthesized item are such constant animations. *)
Theorem const_sets_From_only (v : Q) :
  From (const v) = v /\
  To (const v) = To Animation_default /\
  To (const v) = 0%Q /\
  AnimationType (const v) = AnimationType Animation_default /\
  Span (const v) = Span Animation_default /\
  ((From (const v) == To (const v))%Q <-> (v == 0)%Q) /\
  (forall a,
      Zoom (ItemBase_init a) = or_default (attr_Zoom a) (const 100) /\
      Y (ItemBase_init a) = or_default (attr_Y a) Animation_default /\
      Opacity (ItemBase_init a) = const 100) /\
  (forall spec layer s e,
      let a := ItemBase_attrs_from_spec spec layer s e in
      (attr_Zoom a = None \/ exists z, attr_Zoom a = Some (const z)) /\
      (attr_Y a = None \/ exists z, attr_Y a = Some (const z))) /\
  (forall spec t f layer s e, exists z b,
      TextItem_from_spec spec t f layer s e = TextItem b (const z) t).
Proof.
  split; [reflexivity|]. split; [reflexivity|]. split; [reflexivity|].
  split; [reflexivity|]. split; [reflexivity|]. split; [|split; [|split]].
  - simpl. reflexivity.
  - intros a. repeat split.
  - intros spec layer s e. simpl. split.
    + destruct (truthy (zoom spec)); [right; eexists; reflexivity | now left].
    + destruct (truthy (y spec)); [right; eexists; reflexivity | now left].
  - intros spec t f layer s e. unfold TextItem_from_spec.
    destruct (truthy f); eexists; eexists; reflexivity.
Qed.

(** Witness of C6: the animation built for 100. *)
Lemma const_sets_From_only_witness :
  From (const 100) = 100%Q /\ To (const 100) = 0%Q /\
  ((From (const 100) == To (const 100))%Q <-> (100 == 0)%Q).
Proof.
  split; [apply (const_sets_From_only 100)|].
  split; apply (const_sets_From_only 100).
Defined.

(** C6, the claim as written fails: the animation built for 100 has From
    100 and To 0. *)
Lemma const_100_From_differs_from_To :
  ~ ((From (const 100) == To (const 100))%Q /\ (To (const 100) == 100)%Q).
Proof.
  intros [E _]. vm_compute in E. discriminate E.
Qed.

(** ** Frame and duration of a synthesized item *)


Lemma match_cue_inv spec vs s e rest :
  match_cue spec vs = Ok (s, e, rest) ->
  exists l1 l2,
    scan (start_voice_spec spec) vs = Ok (s :: l1) /\
    scan (end_voice_spec spec) (s :: l1) = Ok (e :: l2) /\ rest = l2.
Proof.
  unfold match_cue, bind. intros E.
  destruct (scan (start_voice_spec spec) vs) as [[|s0 l1]|] eqn:E1;
    try discriminate.
  destruct (scan (end_voice_spec spec) (s0 :: l1)) as [[|e0 l2]|] eqn:E2;
    try discriminate.
  injection E as -> -> ->. eauto.
Qed.

Lemma from_spec_frame_length w root vi layer cur s e item :
  synthesize w root vi layer cur s e = Ok item ->
  Layer (item_base item) = layer /\
  Frame (item_base item) = Frame (voice_base s) /\
  Length (item_base item) =
    Frame (voice_base e) + Length (voice_base e) - Frame (voice_base s).
Proof.
  destruct cur as [spec image | spec t f]; simpl; unfold bind.
  - destruct (calculate_image_transformation w image vi 320 20);
      discriminate.
  - intros E. injection E as <-. simpl. auto.
Qed.


(** ** The transform calculator *)

Section Doubles.
Local Open Scope Q_scope.

(** *** Powers of two and rounding *)

Lemma pow2_pos e : 0 < pow2 e.
Proof. apply Qpower_0_lt. reflexivity. Qed.

Lemma pow2_add a b : pow2 (a + b) == pow2 a * pow2 b.
Proof. apply Qpower_plus. discriminate. Qed.

Lemma pow2_sub a b : pow2 (a - b) == pow2 a / pow2 b.
Proof. apply Qpower_minus. discriminate. Qed.

Lemma pow2_Z n : (0 <= n)%Z -> inject_Z (2 ^ n) == pow2 n.
Proof. intros H. now rewrite Zpower_Qpower. Qed.

Lemma pow2_le a b : (a <= b)%Z -> pow2 a <= pow2 b.
Proof. intros H. apply Qpower_le_compat_l; [exact H | discriminate]. Qed.

Lemma div_lt_div (n d a b : Q) :
  0 < b -> b <= d -> 0 <= n -> n < a -> n / d < a / b.
Proof.
  intros Hb Hd Hn Ha.
  assert (Pd : 0 < d) by lra.
  apply Qlt_shift_div_l; [assumption|].
  setoid_replace (n / d * b) with (n * (b / d)) by (field; lra).
  assert (b / d <= 1) by (apply Qle_shift_div_r; lra).
  assert (0 <= b / d) by (apply Qle_shift_div_l; lra).
  nra.
Qed.

Lemma div_le_div (n d a b : Q) :
  0 < d -> d <= b -> 0 <= a -> a <= n -> a / b <= n / d.
Proof.
  intros Hd Hb Ha Hn.
  assert (Pb : 0 < b) by lra.
  apply Qle_shift_div_l; [assumption|].
  setoid_replace (a / b * d) with (a * (d / b)) by (field; lra).
  assert (d / b <= 1) by (apply Qle_shift_div_r; lra).
  assert (0 <= d / b) by (apply Qle_shift_div_l; lra).
  nra.
Qed.

Lemma floor_log2_spec x :
  0 < x -> pow2 (floor_log2 x) <= x /\ x < pow2 (floor_log2 x + 1).
Proof.
  intros Hx. destruct x as [n d]. unfold floor_log2. cbn [Qnum Qden].
  assert (Hn : (0 < n)%Z) by (unfold Qlt in Hx; simpl in Hx; lia).
  destruct (Z.log2_spec n Hn) as [N1 N2].
  destruct (Z.log2_spec (Zpos d) eq_refl) as [D1 D2].
  pose proof (Z.log2_nonneg n) as An. pose proof (Z.log2_nonneg (Zpos d)) as Ad.
  set (a := Z.log2 n) in *. set (b := Z.log2 (Zpos d)) in *.
  assert (E : n # d == inject_Z n / inject_Z (Zpos d)) by apply Qmake_Qdiv.
  assert (Q1 : pow2 a <= inject_Z n) by (rewrite <- pow2_Z, <- Zle_Qle; lia).
  assert (Q2 : inject_Z n < pow2 (a + 1))
    by (rewrite <- pow2_Z, <- Zlt_Qlt; lia).
  assert (Q3 : pow2 b <= inject_Z (Zpos d))
    by (rewrite <- pow2_Z, <- Zle_Qle; lia).
  assert (Q4 : inject_Z (Zpos d) < pow2 (b + 1))
    by (rewrite <- pow2_Z, <- Zlt_Qlt; lia).
  pose proof (pow2_pos a) as Pa. pose proof (pow2_pos b) as Pb.
  destruct (Qle_bool (pow2 (a - b)) (n # d)) eqn:T.
  - apply Qle_bool_iff in T. split; [exact T|].
    replace (a - b + 1)%Z with (a + 1 - b)%Z by lia.
    rewrite E, pow2_sub. apply div_lt_div; lra.
  - assert (T' : n # d < pow2 (a - b)).
    { apply Qnot_le_lt. intros L. apply Qle_bool_iff in L. congruence. }
    split.
    + replace (a - b - 1)%Z with (a - (b + 1))%Z by lia.
      rewrite E, pow2_sub. apply div_le_div; lra.
    + replace (a - b - 1 + 1)%Z with (a - b)%Z by lia. exact T'.
Qed.

Lemma round_half_even_error q :
  Qabs (inject_Z (round_half_even q) - q) <= 1 # 2.
Proof.
  unfold round_half_even.
  pose proof (Qfloor_le q) as F1. pose proof (Qlt_floor q) as F2.
  rewrite inject_Z_plus in F2. change (inject_Z 1) with 1 in F2.
  set (f := Qfloor q) in *.
  apply Qabs_Qle_condition.
  destruct (Qcompare_spec (q - inject_Z f) (1 # 2)) as [E|L|G].
  - destruct (Z.even f); [|rewrite inject_Z_plus; change (inject_Z 1) with 1];
      split; lra.
  - split; lra.
  - rewrite inject_Z_plus; change (inject_Z 1) with 1. split; lra.
Qed.

Lemma round_pos_spec x :
  pow2 (-1000) <= x -> x <= pow2 1000 ->
  exists y, round_pos x = Finite y /\ x * (1 - eps64) <= y /\ y <= x * (1 + eps64).
Proof.
  intros Lo Hi.
  assert (Hx : 0 < x) by (pose proof (pow2_pos (-1000)); lra).
  destruct (floor_log2_spec x Hx) as [K1 K2].
  unfold round_pos. set (k := floor_log2 x) in *.
  assert (Kle : (k <= 1000)%Z).
  { apply (Qpower_le_compat_l_inv 2); [|reflexivity]. fold (pow2 k) (pow2 1000). lra. }
  assert (Kge : (-1000 < k + 1)%Z).
  { apply (Qpower_lt_compat_l_inv 2); [|reflexivity].
    fold (pow2 (-1000)) (pow2 (k + 1)). lra. }
  replace (Z.max (k - 52) (-1074)) with (k - 52)%Z by lia.
  set (e := (k - 52)%Z). pose proof (pow2_pos e) as Pe.
  pose proof (round_half_even_error (x / pow2 e)) as R.
  set (m := inject_Z (round_half_even (x / pow2 e))) in *.
  apply Qabs_Qle_condition in R. destruct R as [R1 R2].
  assert (X : x == x / pow2 e * pow2 e) by (field; lra).
  assert (Eu : pow2 e * (1 # 2) == pow2 k * eps64).
  { unfold eps64, e. replace (k - 52)%Z with (k + -53 + 1)%Z by lia.
    rewrite !pow2_add. change (pow2 1) with 2. field. }
  assert (B1 : x - pow2 k * eps64 <= m * pow2 e) by nra.
  assert (B2 : m * pow2 e <= x + pow2 k * eps64) by nra.
  assert (U : 0 < eps64) by apply pow2_pos.
  assert (U1 : eps64 <= 1) by (unfold eps64; apply (pow2_le (-53) 0); lia).
  assert (C1 : x * (1 - eps64) <= m * pow2 e) by nra.
  assert (C2 : m * pow2 e <= x * (1 + eps64)) by nra.
  exists (m * pow2 e). split; [|split; assumption].
  destruct (Qle_bool (pow2 1024) (m * pow2 e)) eqn:T; [|reflexivity].
  apply Qle_bool_iff in T. exfalso.
  assert (P : pow2 1000 * 2 < pow2 1024) by reflexivity.
  nra.
Qed.

Lemma round64_pos x :
  pow2 (-1000) <= x -> x <= pow2 1000 ->
  exists y, round64 x = Finite y /\ x * (1 - eps64) <= y /\ y <= x * (1 + eps64).
Proof.
  intros Lo Hi. unfold round64.
  assert (Hx : 0 < x) by (pose proof (pow2_pos (-1000)); lra).
  destruct (Qcompare_spec x 0) as [E|L|G]; try lra.
  now apply round_pos_spec.
Qed.

Lemma round64_neg x :
  pow2 (-1000) <= - x -> - x <= pow2 1000 ->
  exists y, round64 x = Finite y /\ x * (1 + eps64) <= y /\ y <= x * (1 - eps64).
Proof.
  intros Lo Hi. unfold round64.
  assert (Hx : x < 0) by (pose proof (pow2_pos (-1000)); lra).
  destruct (Qcompare_spec x 0) as [E|L|G]; try lra.
  destruct (round_pos_spec (- x) Lo Hi) as (y & -> & B1 & B2).
  exists (- y). split; [reflexivity|]. split; lra.
Qed.

Lemma round64_zero x : x == 0 -> round64 x = Finite 0.
Proof.
  intros E. unfold round64.
  destruct (Qcompare_spec x 0) as [_|L|G]; [reflexivity | lra | lra].
Qed.

Lemma u_small : 0 < eps64 /\ eps64 <= 1 # 1000.
Proof. split; [reflexivity | apply Qle_bool_iff; reflexivity]. Qed.

Lemma round64_small x :
  small x ->
  exists y, round64 x = Finite y /\
    (0 < x -> x * (1 - eps64) <= y /\ y <= x * (1 + eps64)) /\
    (x < 0 -> x * (1 + eps64) <= y /\ y <= x * (1 - eps64)) /\
    (x == 0 -> y == 0).
Proof.
  assert (P1 : pow2 (-1000) <= pow2 (-200)) by (apply pow2_le; lia).
  assert (P2 : pow2 200 <= pow2 1000) by (apply pow2_le; lia).
  pose proof (pow2_pos (-200)) as P3.
  intros [Z0 | [[Lo Hi] | [Lo Hi]]].
  - rewrite (round64_zero x Z0). exists 0. split; [reflexivity|].
    repeat split; intros; lra.
  - destruct (round64_pos x) as (y & E & B); try lra.
    exists y. split; [exact E|]. repeat split; intros; lra.
  - destruct (round64_neg x) as (y & E & B); try lra.
    exists y. split; [exact E|]. repeat split; intros; lra.
Qed.

Lemma small_range x lo hi :
  (-200 <= lo)%Z -> (hi <= 200)%Z ->
  (x == 0 \/ (pow2 lo <= x /\ x <= pow2 hi) \/ (pow2 lo <= - x /\ - x <= pow2 hi)) ->
  small x.
Proof.
  intros Hlo Hhi H. pose proof (pow2_le (-200) lo Hlo).
  pose proof (pow2_le hi 200 Hhi). unfold small. lra.
Qed.

Lemma mag_mul x y a b c d :
  mag x a b -> mag y c d -> mag (x * y) (a + c) (b + d).
Proof.
  unfold mag. rewrite !pow2_add.
  pose proof (pow2_pos a). pose proof (pow2_pos b).
  pose proof (pow2_pos c). pose proof (pow2_pos d).
  intros [X | [[X1 X2] | [X1 X2]]] [Y | [[Y1 Y2] | [Y1 Y2]]];
    try (left; nra).
  - right; left. split; nra.
  - right; right. split; nra.
  - right; right. split; nra.
  - right; left. split; nra.
Qed.

Lemma mag_round x a b y :
  (-200 <= a)%Z -> (b <= 200)%Z ->
  mag x a b -> round64 x = Finite y -> mag y (a - 1) (b + 1).
Proof.
  intros Ha Hb M E.
  destruct (round64_small x (small_range x a b Ha Hb M)) as (y' & E' & P & N & Z0).
  rewrite E in E'. injection E' as <-.
  destruct u_small as [U0 U1].
  unfold mag in *. rewrite pow2_sub, pow2_add. change (pow2 1) with 2.
  pose proof (pow2_pos a). pose proof (pow2_pos b).
  destruct M as [X | [[X1 X2] | [X1 X2]]].
  - left. auto.
  - right; left. destruct P as [P1 P2]; [lra|]. split; [|nra].
    apply Qle_shift_div_r; [reflexivity|]. nra.
  - right; right. destruct N as [N1 N2]; [lra|]. split; [|nra].
    apply Qle_shift_div_r; [reflexivity|]. nra.
Qed.

Lemma appr_round x a b :
  (-200 <= a)%Z -> (b <= 200)%Z -> mag x a b ->
  exists y, round64 x = Finite y /\ appr (1 - eps64) (1 + eps64) y x /\
            mag y (a - 1) (b + 1).
Proof.
  intros Ha Hb M.
  destruct (round64_small x (small_range x a b Ha Hb M)) as (y & E & P & N & Z0).
  exists y. split; [exact E|]. split.
  - unfold appr. tauto.
  - exact (mag_round x a b y Ha Hb M E).
Qed.

Lemma nonneg_mul a b : 0 <= a -> 0 <= b -> 0 <= a * b.
Proof. apply Qmult_le_0_compat. Qed.

(** Product with a positive factor that is itself approximated. *)
Lemma appr_mul_pos l1 h1 l2 h2 y1 x1 y2 x2 :
  0 < l1 -> l1 <= h1 -> 0 < l2 -> l2 <= h2 ->
  appr l1 h1 y1 x1 -> 0 < x2 -> x2 * l2 <= y2 -> y2 <= x2 * h2 ->
  appr (l1 * l2) (h1 * h2) (y1 * y2) (x1 * x2).
Proof.
  intros L1 H1 L2 H2 (Z1 & P1 & N1) X2 A2 B2.
  assert (Y2 : 0 < y2) by nra.
  unfold appr. split; [|split].
  - intros E. assert (E1 : x1 == 0) by nra. specialize (Z1 E1). nra.
  - intros E. assert (E1 : 0 < x1) by nra. destruct (P1 E1) as [A1 B1].
    split.
    + pose proof (nonneg_mul (y1 - x1 * l1) y2).
      pose proof (nonneg_mul (x1 * l1) (y2 - x2 * l2)).
      pose proof (nonneg_mul x1 l1). nra.
    + pose proof (nonneg_mul (x1 * h1 - y1) y2).
      pose proof (nonneg_mul (x1 * h1) (x2 * h2 - y2)).
      pose proof (nonneg_mul x1 h1). nra.
  - intros E. assert (E1 : x1 < 0) by nra. destruct (N1 E1) as [A1 B1].
    split.
    + pose proof (nonneg_mul (y1 - x1 * h1) y2).
      pose proof (nonneg_mul (- (x1 * h1)) (x2 * h2 - y2)).
      pose proof (nonneg_mul (- x1) h1). nra.
    + pose proof (nonneg_mul (x1 * l1 - y1) y2).
      pose proof (nonneg_mul (- (x1 * l1)) (y2 - x2 * l2)).
      pose proof (nonneg_mul (- x1) l1). nra.
Qed.

Lemma appr_trans l1 h1 l2 h2 z y x :
  0 < l1 -> l1 <= h1 -> 0 < l2 -> l2 <= h2 ->
  appr l1 h1 y x -> appr l2 h2 z y -> appr (l1 * l2) (h1 * h2) z x.
Proof.
  intros L1 H1 L2 H2 (Z1 & P1 & N1) (Z2 & P2 & N2).
  unfold appr. split; [|split].
  - intros E. auto.
  - intros E. destruct (P1 E) as [A1 B1].
    assert (Y : 0 < y) by nra. destruct (P2 Y) as [A2 B2]. split.
    + pose proof (nonneg_mul (y - x * l1) l2). nra.
    + pose proof (nonneg_mul (x * h1 - y) h2). nra.
  - intros E. destruct (N1 E) as [A1 B1].
    assert (Y : y < 0) by nra. destruct (N2 Y) as [A2 B2]. split.
    + pose proof (nonneg_mul (y - x * h1) h2). nra.
    + pose proof (nonneg_mul (x * l1 - y) l2). nra.
Qed.

Lemma appr_scale l h y x c :
  0 < l -> l <= h -> appr l h y x -> 0 < c -> appr l h (y * c) (x * c).
Proof.
  intros L0 LH (Z0 & P & N) C. unfold appr. split; [|split].
  - intros E. assert (E1 : x == 0) by nra. specialize (Z0 E1). nra.
  - intros E. assert (E1 : 0 < x) by nra. destruct (P E1). split; nra.
  - intros E. assert (E1 : x < 0) by nra. destruct (N E1). split; nra.
Qed.

Lemma appr_eq l h y x x' : x == x' -> appr l h y x -> appr l h y x'.
Proof.
  intros E (Z0 & P & N). unfold appr. split; [|split]; intros X.
  - apply Z0. lra.
  - destruct P; [lra|]. split; nra.
  - destruct N; [lra|]. split; nra.
Qed.

Lemma lo1_hi1 : 0 < lo1 /\ lo1 <= hi1.
Proof. split; [reflexivity | apply Qle_bool_iff; reflexivity]. Qed.

Lemma mag_int k : (0 < k < 2 ^ 40)%Z -> mag (inject_Z k) 0 40.
Proof.
  intros [K1 K2]. right; left. split.
  - change (pow2 0) with (inject_Z 1). rewrite <- Zle_Qle. lia.
  - rewrite <- pow2_Z by lia. rewrite <- Zle_Qle. lia.
Qed.

Lemma mag_100 : mag 100 6 7.
Proof. right; left. split; apply Qle_bool_iff; reflexivity. Qed.

Lemma mag_percent : mag (1 # 100) (-7) (-6).
Proof. right; left. split; apply Qle_bool_iff; reflexivity. Qed.

(** The value that the assertions compare: zoom * size / 100 for the zoom
    100 * m, against the exact product m * size. *)
Lemma scaled_appr m k :
  mag m (-62) 62 -> (0 < k < 2 ^ 40)%Z ->
  exists z r,
    fmul (Finite 100) (Finite m) = Finite z /\
    scaled (Finite z) k = Ok (Finite r) /\
    appr (lo1 * lo1 * lo1 * lo1) (hi1 * hi1 * hi1 * hi1) r (m * inject_Z k).
Proof.
  intros Mm Hk. destruct lo1_hi1 as [L0 LH].
  assert (LL : 0 < lo1 * lo1 /\ lo1 * lo1 <= hi1 * hi1)
    by (split; [reflexivity | apply Qle_bool_iff; reflexivity]).
  assert (LLL : 0 < lo1 * lo1 * lo1 /\ lo1 * lo1 * lo1 <= hi1 * hi1 * hi1)
    by (split; [reflexivity | apply Qle_bool_iff; reflexivity]).
  (* zoom *)
  destruct (appr_round (100 * m) (6 + -62) (7 + 62)) as (z & Ez & Az & Mz);
    [lia | lia | apply mag_mul; [apply mag_100 | exact Mm] |].
  (* float(size) *)
  destruct (appr_round (inject_Z k) 0 40) as (fk & Ek & Ak & Mk);
    [lia | lia | apply mag_int; exact Hk |].
  assert (K0 : 0 < inject_Z k)
    by (change 0 with (inject_Z 0); rewrite <- Zlt_Qlt; lia).
  destruct Ak as (_ & Pk & _). destruct (Pk K0) as [Pk1 Pk2].
  (* zoom * float(size) *)
  destruct (appr_round (z * fk) (6 + -62 - 1 + (0 - 1)) (7 + 62 + 1 + (40 + 1)))
    as (p & Ep & Ap & Mp);
    [lia | lia | apply mag_mul; assumption |].
  (* ... / 100 *)
  assert (Md : mag (p / 100) (6 + -62 - 1 + (0 - 1) - 1 + -7)
                   (7 + 62 + 1 + (40 + 1) + 1 + -6)).
  { pose proof (mag_mul p (1 # 100) _ _ _ _ Mp mag_percent) as M.
    unfold mag in *. setoid_replace (p / 100) with (p * (1 # 100)) by field.
    exact M. }
  destruct (appr_round (p / 100) (6 + -62 - 1 + (0 - 1) - 1 + -7)
              (7 + 62 + 1 + (40 + 1) + 1 + -6)) as (r & Er & Ar & _);
    [lia | lia | exact Md |].
  exists z, r. split; [exact Ez|]. split.
  - unfold scaled, float_of_int. rewrite Ek. simpl. rewrite Ep.
    simpl. rewrite Er. reflexivity.
  - pose proof (appr_mul_pos _ _ _ _ _ _ _ _ L0 LH L0 LH Az K0 Pk1 Pk2) as A1.
    pose proof (appr_trans _ _ _ _ _ _ _ (proj1 LL) (proj2 LL) L0 LH A1 Ap)
      as A2.
    pose proof (appr_scale _ _ _ _ (1 # 100) (proj1 LLL) (proj2 LLL) A2
                  eq_refl) as A3.
    assert (A4 : appr (lo1 * lo1 * lo1) (hi1 * hi1 * hi1) (p / 100)
                      (m * inject_Z k)).
    { destruct A3 as (Z3 & P3 & N3). unfold appr.
      split; [|split]; intros X.
      - setoid_replace (p / 100) with (p * (1 # 100)) by field.
        apply Z3. nra.
      - destruct P3 as [P31 P32]; [nra|]. split.
        + setoid_replace (p / 100) with (p * (1 # 100)) by field. nra.
        + setoid_replace (p / 100) with (p * (1 # 100)) by field. nra.
      - destruct N3 as [N31 N32]; [nra|]. split.
        + setoid_replace (p / 100) with (p * (1 # 100)) by field. nra.
        + setoid_replace (p / 100) with (p * (1 # 100)) by field. nra. }
    exact (appr_trans _ _ _ _ _ _ _ (proj1 LLL) (proj2 LLL) L0 LH A4 Ar).
Qed.

(** The bound behind both assertions.  C is the numerator of a quotient,
    K its divisor, q the rounded quotient, m the minimum taken and r the
    computed m * K: when the relative errors add up to at most d and d * B
    is below 20, r stays below C + 20. *)
Lemma below_abstract (l1 h1 l4 h4 d B C K x m q r : Q) :
  0 < l1 -> l1 <= 1 -> 1 <= h1 -> 0 < l4 -> l4 <= 1 -> 1 <= h4 ->
  0 <= d -> h4 * h1 <= 1 + d -> 1 - d <= l4 * l1 -> d * B < 20 ->
  0 < K -> - B <= C -> C <= B -> x * K == C ->
  appr l1 h1 q x -> m <= q -> appr l4 h4 r (m * K) ->
  r < C + 20.
Proof.
  intros L1 L1' H1 L4 L4' H4 D Hd Ld DB K0 C1 C2 XK (Zq & Pq & Nq) MQ
         (Zr & Pr & Nr).
  assert (B0 : 0 <= B) by lra.
  assert (T : m == 0 \/ 0 < m \/ m < 0) by lra.
  destruct T as [M0 | [M0 | M0]].
  - (* r = 0 and q >= 0, so C >= 0 *)
    assert (R0 : r == 0) by (apply Zr; nra).
    assert (X0 : 0 <= x).
    { destruct (Qlt_le_dec x 0) as [X|X]; [|exact X].
      destruct (Nq X). nra. }
    nra.
  - assert (MK : 0 < m * K) by nra. destruct (Pr MK) as [_ R2].
    assert (X0 : 0 < x).
    { destruct (Qlt_le_dec 0 x) as [X|X]; [exact X|].
      assert (X' : x == 0 \/ x < 0) by lra. destruct X' as [X'|X'].
      - specialize (Zq X'). lra.
      - destruct (Nq X'). nra. }
    destruct (Pq X0) as [_ Q2].
    assert (S1 : m * K <= x * h1 * K) by nra.
    assert (S2 : r <= x * h1 * K * h4).
    { pose proof (nonneg_mul (x * h1 * K - m * K) h4). nra. }
    assert (S3 : x * h1 * K * h4 == C * (h4 * h1)) by (rewrite <- XK; ring).
    assert (S4 : C * (h4 * h1) <= C * (1 + d)).
    { pose proof (nonneg_mul C (1 + d - h4 * h1)). nra. }
    assert (S5 : C * d <= B * d) by (pose proof (nonneg_mul (B - C) d); nra).
    nra.
  - assert (MK : m * K < 0) by nra. destruct (Nr MK) as [_ R2].
    assert (Rn : r < 0) by nra.
    destruct (Qlt_le_dec x 0) as [X|X].
    + destruct (Nq X) as [_ Q2].
      assert (S1 : m * K <= x * l1 * K) by nra.
      assert (S2 : r <= x * l1 * K * l4).
      { pose proof (nonneg_mul (x * l1 * K - m * K) l4). nra. }
      assert (S3 : x * l1 * K * l4 == C * (l4 * l1)) by (rewrite <- XK; ring).
      assert (Cn : C < 0) by nra.
      assert (S4 : C * (l4 * l1) <= C * (1 - d)).
      { pose proof (nonneg_mul (- C) (l4 * l1 - (1 - d))). nra. }
      assert (S5 : - C * d <= B * d)
        by (pose proof (nonneg_mul (B + C) d); nra).
      nra.
    + assert (C0 : 0 <= C) by nra. lra.
Qed.

Lemma true_div_spec c k :
  (0 < k < 2 ^ 40)%Z -> (- 2 ^ 41 < c < 2 ^ 41)%Z ->
  exists q, true_div c k = Ok (Finite q) /\
            appr lo1 hi1 q (inject_Z c / inject_Z k) /\ mag q (-62) 62.
Proof.
  intros Hk Hc.
  assert (K0 : 0 < inject_Z k)
    by (change 0 with (inject_Z 0); rewrite <- Zlt_Qlt; lia).
  assert (K1 : 1 <= inject_Z k)
    by (change 1 with (inject_Z 1); rewrite <- Zle_Qle; lia).
  assert (K2 : inject_Z k <= pow2 40)
    by (rewrite <- pow2_Z by lia; rewrite <- Zle_Qle; lia).
  assert (P41 : pow2 41 == inject_Z (2 ^ 41)) by (now rewrite pow2_Z).
  assert (P40 : pow2 (-40) == 1 / pow2 40).
  { change (-40)%Z with (0 - 40)%Z. rewrite pow2_sub. reflexivity. }
  pose proof (pow2_pos 40) as Q40.
  assert (M : mag (inject_Z c / inject_Z k) (-40) 41).
  { unfold mag. destruct (Z.lt_trichotomy c 0) as [C|[C|C]].
    - right; right.
      assert (C1 : 1 <= - inject_Z c).
      { rewrite <- inject_Z_opp. change 1 with (inject_Z 1).
        rewrite <- Zle_Qle. lia. }
      assert (C2 : - inject_Z c <= pow2 41).
      { rewrite P41, <- inject_Z_opp, <- Zle_Qle. lia. }
      setoid_replace (- (inject_Z c / inject_Z k))
        with (- inject_Z c / inject_Z k) by (field; lra).
      split.
      + rewrite P40. apply div_le_div; lra.
      + apply Qle_shift_div_r; [exact K0|]. nra.
    - left. subst c. field. lra.
    - right; left.
      assert (C1 : 1 <= inject_Z c)
        by (change 1 with (inject_Z 1); rewrite <- Zle_Qle; lia).
      assert (C2 : inject_Z c <= pow2 41)
        by (rewrite P41, <- Zle_Qle; lia).
      split.
      + rewrite P40. apply div_le_div; lra.
      + apply Qle_shift_div_r; [exact K0|]. nra. }
  destruct (appr_round _ (-40) 41 ltac:(lia) ltac:(lia) M) as (q & E & A & Mq).
  exists q. unfold true_div.
  replace (k =? 0)%Z with false by (symmetry; apply Z.eqb_neq; lia).
  rewrite E. split; [reflexivity|]. split; [exact A|].
  unfold mag in *.
  pose proof (pow2_le (-62) (-40 - 1) ltac:(lia)).
  pose proof (pow2_le (41 + 1) 62 ltac:(lia)). lra.
Qed.

Lemma Qltb_lt a b : Qltb a b = true <-> a < b.
Proof.
  unfold Qltb. rewrite negb_true_iff. split.
  - intros E. apply Qnot_le_lt. intros L. apply Qle_bool_iff in L. congruence.
  - intros L. destruct (Qle_bool b a) eqn:E; [|reflexivity].
    apply Qle_bool_iff in E. lra.
Qed.

Lemma py_min_spec a b :
  exists m, py_min (Finite a) (Finite b) = Finite m /\ m <= a /\ m <= b /\
            (m = a \/ m = b).
Proof.
  unfold py_min, flt. destruct (Qltb b a) eqn:E.
  - apply Qltb_lt in E. exists b. repeat split; auto; lra.
  - exists a. repeat split; auto; try lra.
    destruct (Qlt_le_dec b a) as [L|L]; [|exact L].
    apply Qltb_lt in L. congruence.
Qed.

Lemma appr_abs q x :
  appr lo1 hi1 q x -> Qabs (q - x) <= Qabs x * eps64.
Proof.
  intros (Z0 & P & N). unfold lo1, hi1 in *.
  destruct (Qlt_le_dec 0 x) as [X|X].
  - destruct (P X) as [A B]. rewrite (Qabs_pos x) by lra.
    apply Qabs_Qle_condition. split; lra.
  - assert (X' : x == 0 \/ x < 0) by lra. destruct X' as [X'|X'].
    + specialize (Z0 X'). rewrite X', Z0. apply Qle_bool_iff. reflexivity.
    + destruct (N X') as [A B]. rewrite (Qabs_neg x) by lra.
      apply Qabs_Qle_condition. split; lra.
Qed.

(** The y of the transform for the bottom margin 320. *)
Lemma y_of_320 :
  exists b y, float_of_int 320 = Ok (Finite b) /\
              fmul (Finite b) (Finite (- (1 # 2))) = Finite y /\ y == - (160).
Proof.
  eexists. eexists. split; [vm_compute; reflexivity|].
  split; [vm_compute; reflexivity|]. unfold Qeq. vm_compute. reflexivity.
Qed.

Lemma pow2_41_bounds c :
  (- 2 ^ 41 < c < 2 ^ 41)%Z ->
  - pow2 41 <= inject_Z c /\ inject_Z c <= pow2 41.
Proof.
  intros H. rewrite <- (pow2_Z 41) by lia. rewrite <- inject_Z_opp.
  rewrite <- !Zle_Qle. lia.
Qed.

(** The assertion of line 127 or 128 on the computed value: C is the
    numerator of the zoom on that side and k the size on that side. *)
Lemma scaled_below c k q m r :
  (0 < k < 2 ^ 40)%Z -> (- 2 ^ 41 < c < 2 ^ 41)%Z ->
  appr lo1 hi1 q (inject_Z c / inject_Z k) -> m <= q ->
  appr (lo1 * lo1 * lo1 * lo1) (hi1 * hi1 * hi1 * hi1) r (m * inject_Z k) ->
  r < inject_Z (c + 20).
Proof.
  intros Hk Hc Aq Mq Ar.
  assert (K0 : 0 < inject_Z k)
    by (change 0 with (inject_Z 0); rewrite <- Zlt_Qlt; lia).
  destruct (pow2_41_bounds c Hc) as [C1 C2].
  rewrite inject_Z_plus. change (inject_Z 20) with 20.
  apply (below_abstract lo1 hi1 (lo1 * lo1 * lo1 * lo1)
           (hi1 * hi1 * hi1 * hi1) (pow2 (-50)) (pow2 41) (inject_Z c)
           (inject_Z k) (inject_Z c / inject_Z k) m q r);
    try assumption;
    try reflexivity;
    try (apply Qle_bool_iff; reflexivity).
  field. lra.
Qed.

Lemma transformation_of_bounded_size iw ih vi :
  (0 < iw < 2 ^ 40)%Z -> (0 < ih < 2 ^ 40)%Z ->
  (- 2 ^ 40 < Width vi < 2 ^ 40)%Z -> (- 2 ^ 40 < Height vi < 2 ^ 40)%Z ->
  exists wz hz z y sh sw,
    true_div (Width vi - 20) iw = Ok (Finite wz) /\
    Qabs (wz - inject_Z (Width vi - 20) / inject_Z iw)
      <= Qabs (inject_Z (Width vi - 20) / inject_Z iw) * eps64 /\
    true_div (Height vi - 20 - 320) ih = Ok (Finite hz) /\
    Qabs (hz - inject_Z (Height vi - 20 - 320) / inject_Z ih)
      <= Qabs (inject_Z (Height vi - 20 - 320) / inject_Z ih) * eps64 /\
    fmul (Finite 100) (py_min (Finite wz) (Finite hz)) = Finite z /\
    transformation_of_size iw ih vi 320 20
      = Ok (mkTransform (Finite z) (Finite y)) /\
    y == - (160) /\
    scaled (Finite z) ih = Ok (Finite sh) /\
    sh < inject_Z (Height vi - 320) /\
    scaled (Finite z) iw = Ok (Finite sw) /\
    sw < inject_Z (Width vi).
Proof.
  intros Hw Hh HW HH.
  destruct (true_div_spec (Width vi - 20) iw Hw ltac:(lia))
    as (wz & Ew & Aw & Mw).
  destruct (true_div_spec (Height vi - 20 - 320) ih Hh ltac:(lia))
    as (hz & Eh & Ah & Mh).
  destruct (py_min_spec wz hz) as (m & Em & Lw & Lh & Hm).
  assert (Mm : mag m (-62) 62) by (destruct Hm as [-> | ->]; assumption).
  destruct (scaled_appr m ih Mm Hh) as (z & sh & Ez & Esh & Ash).
  destruct (scaled_appr m iw Mm Hw) as (z' & sw & Ez' & Esw & Asw).
  rewrite Ez in Ez'. injection Ez' as <-.
  destruct y_of_320 as (b & y & Eb & Ey & Hy).
  assert (Bh : sh < inject_Z (Height vi - 320)).
  { replace (Height vi - 320)%Z with (Height vi - 20 - 320 + 20)%Z by lia.
    apply (scaled_below _ ih hz m sh); auto. lia. }
  assert (Bw : sw < inject_Z (Width vi)).
  { replace (Width vi) with (Width vi - 20 + 20)%Z at 1 by lia.
    apply (scaled_below _ iw wz m sw); auto. lia. }
  exists wz, hz, z, y, sh, sw.
  split; [exact Ew|]. split; [exact (appr_abs _ _ Aw)|].
  split; [exact Eh|]. split; [exact (appr_abs _ _ Ah)|].
  split; [rewrite Em; exact Ez|].
  split.
  - unfold transformation_of_size. rewrite Eb, Ew, Eh. unfold bind.
    rewrite Em, Ez, Esh, Esw, Ey. unfold flt_int.
    rewrite (proj2 (Qltb_lt _ _) Bh), (proj2 (Qltb_lt _ _) Bw). reflexivity.
  - repeat split; assumption.
Qed.

Lemma float_of_int_small n :
  (- 2 ^ 40 < n < 2 ^ 40)%Z -> exists q, float_of_int n = Ok (Finite q).
Proof.
  intros Hn.
  assert (M : mag (inject_Z n) 0 40).
  { destruct (Z.lt_trichotomy n 0) as [N|[N|N]].
    - pose proof (mag_int (- n) ltac:(lia)) as M. unfold mag in *.
      rewrite inject_Z_opp in M. lra.
    - subst n. left. reflexivity.
    - apply mag_int. lia. }
  destruct (appr_round _ 0 40 ltac:(lia) ltac:(lia) M) as (q & E & _).
  exists q. unfold float_of_int. rewrite E. reflexivity.
Qed.

Lemma float_of_int_raises n e :
  float_of_int n = Raise e -> e = OverflowError.
Proof.
  unfold float_of_int. destruct (round64 (inject_Z n)); congruence.
Qed.

Lemma true_div_raises a b e :
  true_div a b = Raise e -> e = ZeroDivisionError \/ e = OverflowError.
Proof.
  unfold true_div. destruct (b =? 0)%Z; [intros E; left; congruence|].
  destruct (round64 _); intros E; try discriminate; right; congruence.
Qed.

Lemma true_div_returns a b q : true_div a b = Ok q -> b <> 0%Z.
Proof. unfold true_div. intros E ->. discriminate. Qed.

(** An image without width or without height: the division of line 124
    or 125 raises, unless an overflow comes first. *)
Lemma transformation_of_empty_size iw ih vi bottom margin :
  iw = 0%Z \/ ih = 0%Z ->
  (exists e, transformation_of_size iw ih vi bottom margin = Raise e /\
             (e = ZeroDivisionError \/ e = OverflowError)) /\
  ((- 2 ^ 40 < bottom < 2 ^ 40)%Z ->
   iw = 0%Z \/ ((0 < iw < 2 ^ 40)%Z /\
               (- 2 ^ 41 < Width vi - margin < 2 ^ 41)%Z) ->
   transformation_of_size iw ih vi bottom margin = Raise ZeroDivisionError).
Proof.
  intros Hz. unfold transformation_of_size. split.
  - destruct (float_of_int bottom) as [b|e] eqn:Eb.
    + unfold bind at 1.
      destruct (true_div (Width vi - margin) iw) as [wz|e] eqn:Ew.
      * unfold bind at 1. pose proof (true_div_returns _ _ _ Ew) as Nw.
        assert (ih = 0)%Z as -> by (destruct Hz; [contradiction | assumption]).
        exists ZeroDivisionError. split; [reflexivity | left; reflexivity].
      * exists e. split; [reflexivity | exact (true_div_raises _ _ _ Ew)].
    + exists e. split; [reflexivity|].
      right. exact (float_of_int_raises _ _ Eb).
  - intros Hb Hw. destruct (float_of_int_small bottom Hb) as (b & Eb).
    rewrite Eb. unfold bind at 1.
    destruct Hw as [-> | [Hw HW]]; [reflexivity|].
    destruct (true_div_spec (Width vi - margin) iw Hw HW) as (wz & Ew & _).
    rewrite Ew. unfold bind at 1.
    assert (ih = 0)%Z as -> by lia. reflexivity.
Qed.

End Doubles.




Lemma calculate_of_empty_size w image_path vi bottom margin iw ih :
  image_size w image_path = Ok (iw, ih) ->
  iw = 0 \/ ih = 0 ->
  (exists e,
     calculate_image_transformation w image_path vi bottom margin = Raise e /\
     (e = ZeroDivisionError \/ e = OverflowError)) /\
  (- 2 ^ 40 < bottom < 2 ^ 40 ->
   iw = 0 \/ (0 < iw < 2 ^ 40 /\ - 2 ^ 41 < Width vi - margin < 2 ^ 41) ->
   calculate_image_transformation w image_path vi bottom margin
   = Raise ZeroDivisionError).
Proof.
  intros S Hz.
  assert (E : calculate_image_transformation w image_path vi bottom margin
              = transformation_of_size iw ih vi bottom margin)
    by (unfold calculate_image_transformation; rewrite S; reflexivity).
  rewrite E.
  exact (transformation_of_empty_size iw ih vi bottom margin Hz).
Qed.




(** ** The alignment loop *)

Lemma scan_no_match ref vs :
  no_match ref vs -> scan (Some ref) vs = Ok [].
Proof.
  induction vs as [|v vs IH]; intros N; simpl; [reflexivity|].
  rewrite (N v (or_introl eq_refl)). apply IH.
  intros x Hx. apply N. now right.
Qed.

Lemma scan_suffix spec vs vs' :
  scan spec vs = Ok vs' -> exists skipped, vs = (skipped ++ vs')%list.
Proof.
  revert vs'. induction vs as [|v vs IH]; simpl; intros vs' E.
  - injection E as <-. now exists [].
  - destruct spec as [s|]; [|discriminate].
    destruct (matches s v).
    + injection E as <-. now exists [].
    + destruct (IH _ E) as [sk ->]. now exists (v :: sk).
Qed.

(** A cue leaves a strict suffix of the queue: what it skipped or took is
    not offered to any later cue. *)
Lemma align_one_suffix w root vi layer cur vs item vs' :
  align_one w root vi layer cur vs = Ok (item, vs') ->
  exists consumed, consumed <> [] /\ vs = (consumed ++ vs')%list.
Proof.
  unfold align_one, bind. intros E.
  destruct (match_cue (base_of cur) vs) as [[[s e] r]|] eqn:M; [|discriminate].
  destruct (synthesize w root vi layer cur s e); [|discriminate].
  injection E as _ <-.
  destruct (match_cue_inv _ _ _ _ _ M) as (l1 & l2 & S1 & S2 & ->).
  destruct (scan_suffix _ _ _ S1) as [k1 ->].
  destruct (scan_suffix _ _ _ S2) as [k2 E2].
  exists (k1 ++ k2 ++ [e])%list. split.
  - destruct k1; [destruct k2|]; discriminate.
  - rewrite E2, <- !app_assoc. reflexivity.
Qed.

Lemma align_empty_queue w root vi layer specs :
  align w root vi layer specs [] = Ok [].
Proof. destruct specs; reflexivity. Qed.

Lemma align_cons w root vi layer cur specs vs :
  vs <> [] ->
  align w root vi layer (cur :: specs) vs =
  (r <- align_one w root vi layer cur vs ;;
   new_items <- align w root vi layer specs (snd r) ;;
   Ok (fst r :: new_items)).
Proof. destruct vs; [congruence | reflexivity]. Qed.

Lemma reaches_raise w root vi layer specs vs specs' vs' e :
  reaches w root vi layer specs vs specs' vs' ->
  align w root vi layer specs' vs' = Raise e ->
  align w root vi layer specs vs = Raise e.
Proof.
  induction 1 as [|cur specs vs item vs1 specs2 vs2 Hne Hone _ IH]; intros E.
  - exact E.
  - rewrite align_cons by assumption. rewrite Hone. simpl.
    rewrite (IH E). reflexivity.
Qed.

Lemma exhausts_raise spec vs ref :
  vs <> [] -> exhausts spec vs ref ->
  match_cue spec vs = Raise (NoMatchingVoiceItem (Some ref)).
Proof.
  intros Hne [[Hs N] | (s & rest & S & He & N)]; unfold match_cue, bind.
  - rewrite Hs, (scan_no_match _ _ N). reflexivity.
  - rewrite S, He, (scan_no_match _ _ N). reflexivity.
Qed.

(** C9: when the voice-item queue is empty at the top of the loop, the
    loop ends without an error and the cues that remain add no item: this
    holds at the start of a run, after an iteration that took the last voice
    item, and for the whole of [main] from line 52 on, which then writes the
    project with the items found so far. *)
Theorem leftover_cues_are_dropped
    (w : World) (root : string) (vi : VideoInfo) (layer : Z)
    (item_specs : list Spec) :
  align w root vi layer item_specs [] = Ok [] /\
  (forall cur vs item,
      align_one w root vi layer cur vs = Ok (item, []) ->
      align w root vi layer (cur :: item_specs) vs = Ok [item]) /\
  (forall project out,
      voice_items_of (map (shift_layer 3) (Items (Project_Timeline project)))
      = [] ->
      raised (main_from_layer w root item_specs project out) = None /\
      written (main_from_layer w root item_specs project out)
      = Some (out, mkProject (mkTimeline
                 (Timeline_VideoInfo (Project_Timeline project))
                 (map (shift_layer 3) (Items (Project_Timeline project)))))).
Proof.
  split; [apply align_empty_queue | split].
  - intros cur vs item E.
    assert (Hne : vs <> []).
    { intros ->. unfold align_one in E. simpl in E.
      destruct (base_of cur) as [? ? [?|] ?]; discriminate. }
    rewrite align_cons by assumption. rewrite E. simpl.
    rewrite align_empty_queue. reflexivity.
  - intros project out Hv. unfold main_from_layer. rewrite Hv.
    rewrite align_empty_queue. simpl. rewrite app_nil_r. split; reflexivity.
Qed.

(** Witness of C9: after the cue (C, D) takes the last voice item, the cue
    (A, B) that remains is dropped. *)
Lemma leftover_cues_are_dropped_witness :
  let item := TextItem_from_spec (base_of (text_cue "two" vC vD)) "two" None 3
                (voice_base vC) (voice_base vD) in
  align_one demo_world "." canvas 3 (text_cue "two" vC vD) [vA; vB; vC; vD]
  = Ok (item, []) /\
  align demo_world "." canvas 3
        [text_cue "two" vC vD; text_cue "one" vA vB] [vA; vB; vC; vD]
  = Ok [item].
Proof.
  intros item. split; [reflexivity|].
  apply (proj1 (proj2 (leftover_cues_are_dropped demo_world "." canvas 3
                         [text_cue "one" vA vB]))).
  reflexivity.
Defined.

(** C8: when the loop reaches a cue with a queue that is not empty, and
    the scan for its start reference, or the scan for its end reference,
    runs through the whole queue without a match, the run ends with the
    error that carries that very reference, nothing is printed and no
    output document is written. *)
Theorem unmatched_reference_aborts
    (w : World) (root : string) (item_specs : list Spec) (project : Project)
    (out : string) (cur : Spec) (rest : list Spec) (vs : list VoiceItem)
    (ref : VoiceSpec) :
  reaches w root (Timeline_VideoInfo (Project_Timeline project)) 3
    item_specs
    (voice_items_of (map (shift_layer 3) (Items (Project_Timeline project))))
    (cur :: rest) vs ->
  vs <> [] ->
  exhausts (base_of cur) vs ref ->
  align_one w root (Timeline_VideoInfo (Project_Timeline project)) 3 cur vs
  = Raise (NoMatchingVoiceItem (Some ref)) /\
  main_from_layer w root item_specs project out
  = mkOutcome (Some (NoMatchingVoiceItem (Some ref))) [] None /\
  written (main_from_layer w root item_specs project out) = None.
Proof.
  intros R Hne X.
  assert (E1 : align_one w root (Timeline_VideoInfo (Project_Timeline project))
                 3 cur vs = Raise (NoMatchingVoiceItem (Some ref))).
  { unfold align_one. rewrite (exhausts_raise _ _ _ Hne X). reflexivity. }
  assert (E2 : main_from_layer w root item_specs project out
               = mkOutcome (Some (NoMatchingVoiceItem (Some ref))) [] None).
  { unfold main_from_layer.
    rewrite (reaches_raise _ _ _ _ _ _ _ _ (NoMatchingVoiceItem (Some ref)) R).
    - reflexivity.
    - rewrite align_cons by assumption. rewrite E1. reflexivity. }
  split; [exact E1|]. split; [exact E2|]. rewrite E2. reflexivity.
Qed.

(** Witness of C8: with voice items A, B, C, D the cue (A, B) is matched,
    then the end reference E of the cue (C, E) is not found. *)
Lemma unmatched_reference_aborts_witness :
  let specs := [text_cue "one" vA vB; text_cue "two" vC vE] in
  reaches demo_world "." canvas 3 specs [vA; vB; vC; vD]
          [text_cue "two" vC vE] [vC; vD] /\
  exhausts (base_of (text_cue "two" vC vE)) [vC; vD] (spec_of vE) /\
  main_from_layer demo_world "." specs demo_project "out.ymmp"
  = mkOutcome (Some (NoMatchingVoiceItem (Some (spec_of vE)))) [] None.
Proof.
  intros specs.
  assert (R : reaches demo_world "." canvas 3 specs [vA; vB; vC; vD]
                [text_cue "two" vC vE] [vC; vD]).
  { eapply reaches_iter; [discriminate | reflexivity | apply reaches_here]. }
  assert (X : exhausts (base_of (text_cue "two" vC vE)) [vC; vD] (spec_of vE)).
  { right. exists vC, [vD]. split; [reflexivity|]. split; [reflexivity|].
    intros v [<- | [<- | []]]; reflexivity. }
  split; [exact R|]. split; [exact X|].
  apply (unmatched_reference_aborts demo_world "." specs demo_project
           "out.ymmp" (text_cue "two" vC vE) [] [vC; vD] (spec_of vE));
    [exact R | discriminate | exact X].
Defined.

(** ** Order of matching *)

Lemma matches_refl x : matches (spec_of x) x = true.
Proof. unfold matches, spec_of. simpl. now rewrite !String.eqb_refl. Qed.

Lemma matches_other x v :
  content x <> content v -> matches (spec_of x) v = false.
Proof.
  unfold matches, spec_of, content. simpl. intros N.
  destruct (String.eqb_spec (CharacterName x) (CharacterName v)) as [E1|];
    [|reflexivity].
  destruct (String.eqb_spec (Serif x) (Serif v)) as [E2|]; [|reflexivity].
  exfalso. apply N. now rewrite E1, E2.
Qed.

Lemma distinct4 {A} (a b c d : A) :
  NoDup [a; b; c; d] ->
  a <> b /\ a <> c /\ a <> d /\ b <> c /\ b <> d /\ c <> d.
Proof.
  intros N.
  inversion N as [|? ? Ha N1]; subst. inversion N1 as [|? ? Hb N2]; subst.
  inversion N2 as [|? ? Hc _]; subst. simpl in *.
  repeat split; intros ->; tauto.
Qed.

Ltac run_loop :=
  try unfold align_one; try unfold match_cue;
  cbn [align scan bind base_of start_voice_spec end_voice_spec synthesize
       fst snd app].

(** C2 (as the code has it): matching takes the first occurrence, left to
    right, and never goes back.  With voice items A, B, C, D of pairwise
    different content, the cues (A, B) then (C, D) give two items.  The cues
    (C, D) then (A, B) give the one item of (C, D) and no error: D was the
    last voice item, so the loop ends and the cue (A, B) is dropped.  When
    further voice items follow D and none of them has the content of A, the
    cue (A, B) fails with the unmatched-reference error for A, although A is
    in the project.  In every iteration the queue that is left is a strict
    suffix of the queue before. *)
Theorem matching_never_goes_back
    (w : World) (root : string) (vi : VideoInfo) (layer : Z)
    (a b c d : VoiceItem) (t1 t2 : string) :
  NoDup [content a; content b; content c; content d] ->
  let ab := text_cue t1 a b in
  let cd := text_cue t2 c d in
  let item_ab := TextItem_from_spec (base_of ab) t1 None layer
                   (voice_base a) (voice_base b) in
  let item_cd := TextItem_from_spec (base_of cd) t2 None layer
                   (voice_base c) (voice_base d) in
  align w root vi layer [ab; cd] [a; b; c; d] = Ok [item_ab; item_cd] /\
  align w root vi layer [cd; ab] [a; b; c; d] = Ok [item_cd] /\
  (forall e more,
      no_match (spec_of a) (e :: more) ->
      align w root vi layer [cd; ab] ([a; b; c; d] ++ e :: more)%list
      = Raise (NoMatchingVoiceItem (Some (spec_of a)))) /\
  (forall cur vs item vs',
      align_one w root vi layer cur vs = Ok (item, vs') ->
      exists consumed, consumed <> [] /\ vs = (consumed ++ vs')%list).
Proof.
  intros N ab cd item_ab item_cd.
  apply distinct4 in N. destruct N as (Nab & Nac & _ & Nbc & _ & Ncd).
  assert (Mba := matches_other b a (not_eq_sym Nab)).
  assert (Mca := matches_other c a (not_eq_sym Nac)).
  assert (Mcb := matches_other c b (not_eq_sym Nbc)).
  assert (Mdc := matches_other d c (not_eq_sym Ncd)).
  assert (Ra := matches_refl a). assert (Rb := matches_refl b).
  assert (Rc := matches_refl c). assert (Rd := matches_refl d).
  split; [|split; [|split]].
  - unfold ab, cd, text_cue.
    repeat (run_loop; rewrite ?Ra, ?Rb, ?Rc, ?Rd, ?Mba, ?Mdc).
    reflexivity.
  - unfold ab, cd, text_cue.
    repeat (run_loop; rewrite ?Rc, ?Rd, ?Mca, ?Mcb, ?Mdc).
    reflexivity.
  - intros e more X.
    unfold ab, cd, text_cue.
    repeat (run_loop; rewrite ?Rc, ?Rd, ?Mca, ?Mcb, ?Mdc).
    rewrite (X e (or_introl eq_refl)).
    rewrite scan_no_match by (intros v Hv; apply X; now right).
    reflexivity.
  - intros cur vs item vs'. apply align_one_suffix.
Qed.

(** Witness of C2: the voice items A, B, C, D of the example project. *)
Lemma matching_never_goes_back_witness :
  NoDup [content vA; content vB; content vC; content vD] /\
  align demo_world "." canvas 3
        [text_cue "one" vA vB; text_cue "two" vC vD] [vA; vB; vC; vD]
  = Ok [TextItem_from_spec (base_of (text_cue "one" vA vB)) "one" None 3
          (voice_base vA) (voice_base vB);
        TextItem_from_spec (base_of (text_cue "two" vC vD)) "two" None 3
          (voice_base vC) (voice_base vD)].
Proof.
  assert (N : NoDup [content vA; content vB; content vC; content vD]).
  { repeat constructor; simpl; intuition discriminate. }
  split; [exact N|].
  exact (proj1 (matching_never_goes_back demo_world "." canvas 3
                  vA vB vC vD "one" "two" N)).
Defined.

(** C2, the claim as written fails: with voice items A, B, C, D the cues
    (C, D) then (A, B) end without any error and with one item. *)
Lemma reversed_cues_raise_nothing :
  align demo_world "." canvas 3
        [text_cue "two" vC vD; text_cue "one" vA vB] [vA; vB; vC; vD]
  = Ok [TextItem_from_spec (base_of (text_cue "two" vC vD)) "two" None 3
          (voice_base vC) (voice_base vD)] /\
  ~ (exists ref,
        align demo_world "." canvas 3
              [text_cue "two" vC vD; text_cue "one" vA vB] [vA; vB; vC; vD]
        = Raise (NoMatchingVoiceItem ref)).
Proof.
  split; [reflexivity|]. intros [ref E]. vm_compute in E. discriminate E.
Qed.

(** ** The script parser *)

Section ParserProperties.
Context {py : Python}.

Lemma assert_both_populated (cur : Spec) :
  py_assert (is_some (start_voice_spec (base_of cur))
             && is_some (end_voice_spec (base_of cur))) ;;; Ok cur
  = Ok cur /\ populated cur
  \/
  py_assert (is_some (start_voice_spec (base_of cur))
             && is_some (end_voice_spec (base_of cur))) ;;; Ok cur
  = Raise AssertionError.
Proof.
  unfold populated.
  destruct (start_voice_spec (base_of cur)), (end_voice_spec (base_of cur));
    simpl; auto; left; split; auto; split; discriminate.
Qed.

Lemma finalize_at_marker_populated cur last done :
  finalize_at_marker cur last = Ok done -> populated done.
Proof.
  unfold finalize_at_marker.
  match goal with |- (py_assert _ ;;; Ok ?c) = _ -> _ =>
    destruct (assert_both_populated c) as [[-> P] | ->] end;
    [intros E; injection E as <-; exact P | discriminate].
Qed.

Lemma finalize_at_end_populated cur last done :
  finalize_at_end cur last = Ok done -> populated done.
Proof.
  unfold finalize_at_end.
  match goal with |- (py_assert _ ;;; Ok ?c) = _ -> _ =>
    destruct (assert_both_populated c) as [[-> P] | ->] end;
    [intros E; injection E as <-; exact P | discriminate].
Qed.

Lemma step_yields_populated st l s :
  yielded (step st l) = Some s -> populated s.
Proof.
  assert (M : forall b, yielded (marker_step st l b) = Some s -> populated s).
  { intros b. unfold marker_step. destruct (current_item st) as [cur|];
      [|discriminate].
    destruct (finalize_at_marker cur (last_voice_spec st)) eqn:F;
      [|discriminate].
    simpl. intros E. injection E as <-.
    exact (finalize_at_marker_populated _ _ _ F). }
  unfold step.
  destruct (py_in "image" l) as [[|]|]; [apply M| |discriminate].
  destruct (py_in "text" l) as [[|]|]; [apply M| |discriminate].
  unfold voice_step. destruct (current_item st); [|discriminate].
  destruct (line_falsy l); [discriminate|].
  destruct l as [| | | | |elems|[|[k v] m]]; discriminate.
Qed.

(** Every cue that the generator yields has both references set, whatever
    the script and however the run ends. *)
Lemma emitted_cues_are_populated (lines : list line) (st : parser_state) :
  Forall populated (emitted (run_from st lines)).
Proof.
  revert st. induction lines as [|l rest IH]; intros st; simpl.
  - unfold finish. destruct (current_item st) as [cur|]; [|constructor].
    destruct (finalize_at_end cur (last_voice_spec st)) eqn:F;
      simpl; constructor; [|constructor].
    exact (finalize_at_end_populated _ _ _ F).
  - destruct (next (step st l)) as [st'|e] eqn:N; simpl.
    + destruct (yielded (step st l)) eqn:Y; simpl; [constructor|]; auto.
      exact (step_yields_populated _ _ _ Y).
    + destruct (yielded (step st l)) eqn:Y; simpl; constructor; [|constructor].
      exact (step_yields_populated _ _ _ Y).
Qed.

(** A cue that has its start reference and has seen no further voice line
    is yielded, at the next marker, with the end reference equal to the
    start reference. *)
Lemma single_line_cue_at_marker st cur ref l is_image :
  current_item st = Some cur ->
  start_voice_spec (base_of cur) = Some ref ->
  end_voice_spec (base_of cur) = None ->
  last_voice_spec st = None ->
  yielded (marker_step st l is_image) = Some (set_end cur (Some ref)) /\
  end_voice_spec (base_of (set_end cur (Some ref)))
  = start_voice_spec (base_of (set_end cur (Some ref))).
Proof.
  intros C S E L. unfold marker_step, finalize_at_marker.
  rewrite C, L. simpl. rewrite E. simpl. rewrite S.
  destruct cur; simpl in *; rewrite S; simpl; split; reflexivity.
Qed.

(** The same cue at the end of the script: the generator raises instead of
    yielding it. *)
Lemma single_line_cue_at_end st cur ref :
  current_item st = Some cur ->
  start_voice_spec (base_of cur) = Some ref ->
  end_voice_spec (base_of cur) = None ->
  last_voice_spec st = None ->
  finish st = mkRun [] (Some AssertionError).
Proof.
  intros C S E L. unfold finish, finalize_at_end.
  rewrite C, L. simpl. rewrite S, E. reflexivity.
Qed.

(** A line that is neither a marker nor a non-empty mapping leaves the
    generator as it was. *)
Lemma inert_line_is_skipped st l :
  py_in "image" l = Ok false ->
  py_in "text" l = Ok false ->
  (forall m, l <> LMap m) ->
  step st l = mkOut None (Ok st).
Proof.
  intros I T N. unfold step. rewrite I, T. unfold voice_step.
  destruct (current_item st); [|reflexivity].
  destruct (line_falsy l); [reflexivity|].
  destruct l as [| | | | |elems|m]; try reflexivity. now destruct (N m).
Qed.

Lemma inert_line_can_be_inserted l pre post st :
  py_in "image" l = Ok false ->
  py_in "text" l = Ok false ->
  (forall m, l <> LMap m) ->
  run_from st (pre ++ l :: post) = run_from st (pre ++ post).
Proof.
  intros I T N. revert st. induction pre as [|p pre IH]; intros st; simpl.
  - rewrite (inert_line_is_skipped st l I T N). simpl.
    now destruct (run_from st post).
  - destruct (next (step st p)); [|reflexivity]. now rewrite IH.
Qed.

End ParserProperties.

(** C1, at the input where the code departs from it: a script that ends
    with a cue marker followed by one voice line.  The generator yields
    nothing and raises AssertionError, where the claim has the cue emitted
    with its end reference equal to its start reference.  When another cue
    follows the same two lines, the cue is emitted and has that default. *)
Theorem final_single_line_cue_raises {py : Python} :
  list_item_specs script_single_line_last = mkRun [] (Some AssertionError) /\
  list_item_specs
    (script_single_line_last ++
     [LMap [("text", PyStr "next")]; LMap [("marisa", PyStr "B")];
      LMap [("reimu", PyStr "C")]])%list
  = mkRun
      [ImageSpec (mkItemSpec None None
                    (Some (mkVoiceSpec "reimu" (py_strip "A")))
                    (Some (mkVoiceSpec "reimu" (py_strip "A"))))
                 "a.png";
       TextSpec (mkItemSpec None None
                   (Some (mkVoiceSpec "marisa" (py_strip "B")))
                   (Some (mkVoiceSpec "reimu" (py_strip "C"))))
                "next" None]
      None.
Proof. split; reflexivity. Qed.

(** C7, at inputs where the code departs from it: a plain string that
    contains the word text, or a blank entry, put after the third line of a
    script with two cues.  Without the extra line both cues are emitted.  With
    the string the first cue is emitted and the generator then raises
    ValidationError, because the string is taken for a cue marker; with the
    blank entry the generator raises TypeError before any cue is emitted. *)
Theorem string_or_blank_line_changes_output {py : Python} :
  let cue1 := TextSpec (mkItemSpec None None
                          (Some (mkVoiceSpec "reimu" (py_strip "A")))
                          (Some (mkVoiceSpec "marisa" (py_strip "B"))))
                       "one" None in
  let cue2 := TextSpec (mkItemSpec None None
                          (Some (mkVoiceSpec "reimu" (py_strip "C")))
                          (Some (mkVoiceSpec "marisa" (py_strip "D"))))
                       "two" None in
  list_item_specs script_two_cues = mkRun [cue1; cue2] None /\
  list_item_specs
    (firstn 3 script_two_cues ++
     LScalar (PyStr "some text") :: skipn 3 script_two_cues)%list
  = mkRun [cue1] (Some (ValidationError "TextSpec")) /\
  list_item_specs
    (firstn 3 script_two_cues ++
     LScalar PyNone :: skipn 3 script_two_cues)%list
  = mkRun [] (Some TypeError) /\
  list_item_specs [LScalar (PyStr "some text")]
  = mkRun [] (Some (ValidationError "TextSpec")).
Proof. repeat split; reflexivity. Qed.

(** ** The entry point *)




(** * Further properties *)

(** ** The script parser *)

Section ParserFurther.
Context {py : Python}.

Lemma parse_ItemSpec_no_refs model m b :
  get "start_voice_spec" m = None ->
  get "end_voice_spec" m = None ->
  parse_ItemSpec model m = Ok b ->
  start_voice_spec b = None /\ end_voice_spec b = None.
Proof.
  intros Gs Ge. unfold parse_ItemSpec, bind. rewrite Gs, Ge.
  destruct (validate_opt_float model (get "zoom" m)); [|discriminate].
  destruct (validate_opt_float model (get "y" m)); [|discriminate].
  simpl. intros X. injection X as <-. split; reflexivity.
Qed.

(** A marker without the entries start_voice_spec and end_voice_spec
    parses to a cue without references. *)
Lemma parsed_marker_has_no_refs m (is_image : bool) c :
  get "start_voice_spec" m = None ->
  get "end_voice_spec" m = None ->
  (if is_image then ImageSpec_parse_obj (LMap m)
   else TextSpec_parse_obj (LMap m)) = Ok c ->
  start_voice_spec (base_of c) = None /\ end_voice_spec (base_of c) = None.
Proof.
  intros Gs Ge. destruct is_image; simpl; unfold bind.
  - destruct (parse_ItemSpec "ImageSpec" m) eqn:P; [|discriminate].
    destruct (validate_str "ImageSpec" (get "image" m)); [|discriminate].
    intros E. injection E as <-. exact (parse_ItemSpec_no_refs _ _ _ Gs Ge P).
  - destruct (parse_ItemSpec "TextSpec" m) eqn:P; [|discriminate].
    destruct (validate_str "TextSpec" (get "text" m)); [|discriminate].
    destruct (validate_opt_float "TextSpec" (get "font_size" m));
      [|discriminate].
    intros E. injection E as <-. exact (parse_ItemSpec_no_refs _ _ _ Gs Ge P).
Qed.

(** [step] on a marker line is [marker_step], with the kind that line 147
    selects. *)
Lemma step_on_marker st l :
  is_marker l = true ->
  exists is_image, step st l = marker_step st l is_image /\
    (is_image = true <-> py_in "image" l = Ok true).
Proof.
  unfold is_marker, step.
  destruct (py_in "image" l) as [[|]|]; try discriminate.
  - intros _. exists true. split; [reflexivity | tauto].
  - destruct (py_in "text" l) as [[|]|]; try discriminate.
    intros _. exists false. split; [reflexivity|]. split; discriminate.
Qed.

Lemma step_on_other st l :
  not_marker l -> step st l = voice_step st l.
Proof. intros [I T]. unfold step. now rewrite I, T. Qed.

Lemma step_balance st l st' :
  next (step st l) = Ok st' ->
  (List.length (opt_cons (yielded (step st l)) []) + pending st'
   = pending st + (if is_marker l then 1 else 0))%nat.
Proof.
  destruct (is_marker l) eqn:M.
  - destruct (step_on_marker st l M) as (b & -> & _).
    unfold marker_step, pending.
    destruct (current_item st) as [cur|]; simpl.
    + destruct (finalize_at_marker cur (last_voice_spec st)); simpl;
        [|discriminate].
      unfold bind. destruct (if b then _ else _); [|discriminate].
      intros E. injection E as <-. reflexivity.
    + unfold bind. destruct (if b then _ else _); [|discriminate].
      intros E. injection E as <-. reflexivity.
  - unfold is_marker in M. unfold step.
    destruct (py_in "image" l) as [[|]|]; try discriminate.
    destruct (py_in "text" l) as [[|]|]; try discriminate.
    unfold voice_step, pending.
    destruct (current_item st) as [cur|] eqn:C.
    + destruct (line_falsy l); simpl;
        [intros E; injection E as <-; rewrite C; reflexivity|].
      destruct l as [| | | | |elems|[|[k v] m]]; simpl;
        try (intros E; injection E as <-; rewrite C; reflexivity).
      unfold bind. destruct (new_VoiceSpec k v); [|discriminate].
      destruct (negb _); intros E; injection E as <-; reflexivity.
    + simpl. intros E. injection E as <-. rewrite C. reflexivity.
Qed.

Lemma run_from_count lines : forall st,
  ending (run_from st lines) = None ->
  List.length (emitted (run_from st lines))
  = (pending st + marker_count lines)%nat.
Proof.
  induction lines as [|l rest IH]; intros st; simpl.
  - unfold finish, pending, marker_count.
    destruct (current_item st) as [cur|]; simpl; [|reflexivity].
    destruct (finalize_at_end cur (last_voice_spec st)); simpl;
      [reflexivity | discriminate].
  - destruct (next (step st l)) as [st'|e] eqn:N; simpl; [|discriminate].
    intros E. specialize (IH st' E). pose proof (step_balance st l st' N) as B.
    unfold marker_count in *. simpl.
    destruct (yielded (step st l)); destruct (is_marker l); simpl in *; lia.
Qed.

(** X1: whatever the script and however the run ends, every cue that
    [list_item_specs] yields has its start and its end reference set. *)
Theorem every_emitted_cue_is_populated (lines : list line) :
  Forall populated (emitted (list_item_specs lines)).
Proof. apply emitted_cues_are_populated. Qed.

(** X2: when [list_item_specs] ends without an exception it has yielded
    exactly one cue per marker line of the script. *)
Theorem one_cue_per_marker (lines : list line) :
  ending (list_item_specs lines) = None ->
  List.length (emitted (list_item_specs lines)) = marker_count lines.
Proof.
  intros E. unfold list_item_specs in *. now rewrite run_from_count.
Qed.

(** X3: the lines before the first marker are ignored, voice lines
    included and whatever their values: a prefix of lines on which the marker
    test fails changes nothing. *)
Theorem lines_before_first_marker_are_ignored (before rest : list line) :
  Forall not_marker before ->
  list_item_specs (before ++ rest) = list_item_specs rest.
Proof.
  unfold list_item_specs. induction 1 as [|l ls Hl _ IH]; simpl;
    [reflexivity|].
  rewrite (step_on_other _ _ Hl). simpl. rewrite IH.
  now destruct (run_from initial_state rest).
Qed.

(** X4: a line that is not a mapping and on which the marker test fails (a
    string without the words image and text, a list without these two
    strings) can be put anywhere in a script without changing what
    [list_item_specs] yields or how it ends. *)
Theorem line_without_marker_word_is_ignored
    (l : line) (before after : list line) :
  not_marker l ->
  (forall m, l <> LMap m) ->
  list_item_specs (before ++ l :: after) = list_item_specs (before ++ after).
Proof.
  intros [I T] N. unfold list_item_specs.
  now apply inert_line_can_be_inserted.
Qed.

Lemma last_of_cons {A} (l : list A) : forall x d d',
  last (x :: l) d = last (x :: l) d'.
Proof.
  induction l as [|a l IH]; intros x d d'; [reflexivity|].
  change (last (a :: l) d = last (a :: l) d'). apply IH.
Qed.

Lemma py_in_voice_line k nm :
  fst nm <> k -> py_in k (voice_line nm) = Ok false.
Proof.
  intros N. unfold voice_line, py_in, has_key. simpl.
  destruct (String.eqb_spec k (fst nm)) as [E|_]; [|reflexivity].
  now destruct N.
Qed.

Lemma voice_line_not_marker nm : speaker_name nm -> not_marker (voice_line nm).
Proof. intros [I T]. split; now apply py_in_voice_line. Qed.

Lemma step_voice_line st cur nm :
  speaker_name nm ->
  current_item st = Some cur ->
  step st (voice_line nm)
  = mkOut None
      (Ok (if is_some (start_voice_spec (base_of cur))
           then mkState (Some cur) (Some (reference_of nm))
           else mkState (Some (set_start cur (Some (reference_of nm))))
                        (last_voice_spec st))).
Proof.
  intros S C. rewrite (step_on_other _ _ (voice_line_not_marker _ S)).
  unfold voice_step, voice_line. rewrite C. simpl.
  now destruct (start_voice_spec (base_of cur)).
Qed.

Lemma run_voice_lines more : forall st cur ref rest,
  Forall speaker_name more ->
  current_item st = Some cur ->
  start_voice_spec (base_of cur) = Some ref ->
  run_from st (map voice_line more ++ rest)
  = run_from (mkState (Some cur)
                (match more with
                 | [] => last_voice_spec st
                 | nm :: _ => Some (reference_of (last more nm))
                 end)) rest.
Proof.
  induction more as [|nm more IH]; intros st cur ref rest F C S.
  - simpl. destruct st as [c l]. simpl in *. now rewrite C.
  - inversion F as [|? ? Hnm F']; subst.
    change (map voice_line (nm :: more) ++ rest)%list
      with (voice_line nm :: (map voice_line more ++ rest))%list.
    cbn [run_from]. rewrite (step_voice_line st cur nm Hnm C), S.
    cbn [next yielded opt_cons is_some].
    rewrite (IH (mkState (Some cur) (Some (reference_of nm))) cur ref rest
               F' eq_refl S). cbn [last_voice_spec].
    destruct more as [|nm' more'].
    + now destruct (run_from _ rest).
    + change (last (nm :: nm' :: more') nm) with (last (nm' :: more') nm).
      rewrite (last_of_cons more' nm' nm nm').
      now destruct (run_from _ rest).
Qed.

Lemma set_start_refs c v :
  start_voice_spec (base_of (set_start c v)) = v /\
  end_voice_spec (base_of (set_start c v)) = end_voice_spec (base_of c).
Proof. destruct c; split; reflexivity. Qed.

Lemma first_marker_starts_cue m c :
  is_marker (LMap m) = true ->
  (if has_key "image" m then ImageSpec_parse_obj (LMap m)
   else TextSpec_parse_obj (LMap m)) = Ok c ->
  step initial_state (LMap m) = mkOut None (Ok (mkState (Some c) None)).
Proof.
  intros M P.
  destruct (step_on_marker initial_state (LMap m) M) as (b & -> & Hb).
  unfold marker_step. simpl in Hb. cbn [current_item initial_state].
  destruct b, (has_key "image" m).
  - now rewrite P.
  - destruct Hb as [Hb _]. specialize (Hb eq_refl). discriminate Hb.
  - destruct Hb as [_ Hb]. specialize (Hb eq_refl). discriminate Hb.
  - now rewrite P.
Qed.

(** X5: in a script that is a marker without reference entries
    (start_voice_spec, end_voice_spec), one or more voice lines and then
    another marker, the first cue is yielded with the first voice line as its
    start reference and the last voice line as its end reference; the voice
    lines in between play no part, and with a single voice line both
    references are that line. *)
Theorem end_reference_is_last_voice_line
    (m : list (string * pyval)) (c : Spec) (first : string * string)
    (more : list (string * string)) (l' : line) (rest : list line) :
  is_marker (LMap m) = true ->
  get "start_voice_spec" m = None ->
  get "end_voice_spec" m = None ->
  (if has_key "image" m then ImageSpec_parse_obj (LMap m)
   else TextSpec_parse_obj (LMap m)) = Ok c ->
  Forall speaker_name (first :: more) ->
  is_marker l' = true ->
  hd_error (emitted (list_item_specs
     (LMap m :: map voice_line (first :: more) ++ l' :: rest)))
  = Some (set_end (set_start c (Some (reference_of first)))
                  (Some (reference_of (last more first)))).
Proof.
  intros M Gs Ge P F M'. inversion F as [|? ? Hfirst Fmore]; subst.
  pose proof (parsed_marker_has_no_refs m (has_key "image" m) c Gs Ge P)
    as [S0 E0].
  unfold list_item_specs.
  change (LMap m :: map voice_line (first :: more) ++ l' :: rest)%list
    with (LMap m :: voice_line first
            :: (map voice_line more ++ l' :: rest))%list.
  cbn [run_from].
  pose proof (first_marker_starts_cue m c M P) as St.
  rewrite St. cbn [next yielded opt_cons emitted].
  rewrite (step_voice_line (mkState (Some c) None) c first Hfirst eq_refl), S0.
  cbn [next yielded opt_cons emitted is_some last_voice_spec].
  set (c1 := set_start c (Some (reference_of first))).
  destruct (set_start_refs c (Some (reference_of first))) as [S1 E1].
  fold c1 in S1, E1. rewrite E0 in E1.
  rewrite (run_voice_lines more (mkState (Some c1) None) c1
             (reference_of first) _ Fmore eq_refl S1).
  cbn [run_from last_voice_spec].
  destruct (step_on_marker
              (mkState (Some c1)
                 match more with
                 | [] => None
                 | nm :: _ => Some (reference_of (last more nm))
                 end) l' M') as (b & -> & _).
  unfold marker_step. cbn [current_item last_voice_spec].
  assert (Fin : finalize_at_marker c1
                  match more with
                  | [] => None
                  | nm :: _ => Some (reference_of (last more nm))
                  end
                = Ok (set_end c1 (Some (reference_of (last more first))))).
  { unfold finalize_at_marker. destruct more as [|nm more'].
    - simpl. rewrite E1. simpl. rewrite S1.
      destruct c; reflexivity.
    - rewrite (last_of_cons more' nm nm first).
      cbn [is_some]. destruct c; reflexivity. }
  rewrite Fin. cbn [next yielded].
  destruct (_ <- (if b then _ else _) ;; _); reflexivity.
Qed.

(** X6: a cue without any voice line is an error: a marker without
    reference entries (start_voice_spec, end_voice_spec) that parses,
    followed at once by another marker or by the end of the script, makes
    [list_item_specs] raise AssertionError without yielding that cue. *)
Theorem cue_without_voice_line_raises
    (m : list (string * pyval)) (c : Spec) (l' : line) (rest : list line) :
  is_marker (LMap m) = true ->
  get "start_voice_spec" m = None ->
  get "end_voice_spec" m = None ->
  (if has_key "image" m then ImageSpec_parse_obj (LMap m)
   else TextSpec_parse_obj (LMap m)) = Ok c ->
  is_marker l' = true ->
  list_item_specs (LMap m :: l' :: rest) = mkRun [] (Some AssertionError) /\
  list_item_specs [LMap m] = mkRun [] (Some AssertionError).
Proof.
  intros M Gs Ge P M'.
  pose proof (parsed_marker_has_no_refs m (has_key "image" m) c Gs Ge P)
    as [S0 E0].
  pose proof (first_marker_starts_cue m c M P) as St.
  unfold list_item_specs. cbn [run_from]. rewrite St.
  cbn [next yielded opt_cons emitted ending].
  split.
  - destruct (step_on_marker (mkState (Some c) None) l' M') as (b & -> & _).
    unfold marker_step, finalize_at_marker. simpl. rewrite E0. simpl.
    rewrite S0. destruct c; simpl in *; rewrite S0; reflexivity.
  - unfold finish, finalize_at_end. simpl. rewrite S0. reflexivity.
Qed.
End ParserFurther.

(** ** The transform calculator *)

Lemma inject_Z_pos d : 0 < d -> (0 < inject_Z d)%Q.
Proof.
  intros Hd. change 0%Q with (inject_Z 0). now rewrite <- Zlt_Qlt.
Qed.

Lemma div_mul_cancel (n d : Z) :
  0 < d -> (inject_Z n / inject_Z d * inject_Z d == inject_Z n)%Q.
Proof.
  intros Hd. pose proof (inject_Z_pos d Hd) as P.
  field. intros Z0. rewrite Z0 in P. discriminate.
Qed.

Lemma div_pos_iff (n d : Z) :
  0 < d -> ((0 < inject_Z n / inject_Z d)%Q <-> 0 < n).
Proof.
  intros Hd. pose proof (inject_Z_pos d Hd) as P. split.
  - intros L. pose proof (Qmult_lt_0_compat _ _ L P) as L2.
    rewrite (div_mul_cancel n d Hd) in L2.
    change 0%Q with (inject_Z 0) in L2. now rewrite <- Zlt_Qlt in L2.
  - intros Hn. apply Qmult_lt_0_compat; [now apply inject_Z_pos|].
    now apply Qinv_lt_0_compat.
Qed.

(** Rounding keeps the sign. *)
Lemma appr_sign l h y x :
  (0 < l)%Q -> (l <= h)%Q -> appr l h y x -> ((0 < y)%Q <-> (0 < x)%Q).
Proof.
  intros L LH (Z0 & P & N). split; intros H.
  - destruct (Qlt_le_dec 0 x) as [X|X]; [exact X|].
    assert (X' : (x == 0 \/ x < 0)%Q) by lra. destruct X' as [X'|X'].
    + specialize (Z0 X'). lra.
    + destruct (N X') as [_ B]. nra.
  - destruct (P H) as [A _]. nra.
Qed.

Lemma zoom_sign iw ih vi :
  0 < iw < 2 ^ 40 -> 0 < ih < 2 ^ 40 ->
  - 2 ^ 40 < Width vi < 2 ^ 40 -> - 2 ^ 40 < Height vi < 2 ^ 40 ->
  exists z y,
    transformation_of_size iw ih vi 320 20
      = Ok (mkTransform (Finite z) (Finite y)) /\
    ((0 < z)%Q <-> 20 < Width vi /\ 20 + 320 < Height vi).
Proof.
  intros Hw Hh HW HH.
  destruct (transformation_of_bounded_size iw ih vi Hw Hh HW HH)
    as (wz & hz & z & y & sh & sw & Ew & _ & Eh & _ & Ez & E & _).
  exists z, y. split; [exact E|].
  destruct (true_div_spec (Width vi - 20) iw Hw ltac:(lia))
    as (wz' & Ew' & Aw & _).
  destruct (true_div_spec (Height vi - 20 - 320) ih Hh ltac:(lia))
    as (hz' & Eh' & Ah & Mh).
  rewrite Ew in Ew'. injection Ew' as <-.
  rewrite Eh in Eh'. injection Eh' as <-.
  destruct lo1_hi1 as [L0 LH].
  pose proof (appr_sign _ _ _ _ L0 LH Aw) as Sw.
  pose proof (appr_sign _ _ _ _ L0 LH Ah) as Sh.
  rewrite (div_pos_iff _ iw ltac:(lia)) in Sw.
  rewrite (div_pos_iff _ ih ltac:(lia)) in Sh.
  destruct (py_min_spec wz hz) as (m & Em & Lw & Lh & Hm).
  rewrite Em in Ez.
  assert (Mm : mag m (-62) 62).
  { destruct Hm as [-> | ->]; [|exact Mh].
    destruct (true_div_spec (Width vi - 20) iw Hw ltac:(lia))
      as (wz' & Ew' & _ & Mw).
    rewrite Ew in Ew'. injection Ew' as <-. exact Mw. }
  destruct (appr_round (100 * m) (6 + -62) (7 + 62)) as (z' & Ez' & Az & _);
    [lia | lia | apply mag_mul; [apply mag_100 | exact Mm] |].
  change (fmul (Finite 100) (Finite m)) with (round64 (100 * m)) in Ez.
  rewrite Ez in Ez'. injection Ez' as <-.
  pose proof (appr_sign _ _ _ _ L0 LH Az) as Sz.
  assert (Sm : ((0 < m)%Q <-> (0 < wz)%Q /\ (0 < hz)%Q)).
  { split.
    - intros M. split; lra.
    - intros [A B]. destruct Hm as [-> | ->]; assumption. }
  assert (S100 : ((0 < 100 * m)%Q <-> (0 < m)%Q)) by (split; intros; lra).
  rewrite Sz, S100, Sm, Sw, Sh. lia.
Qed.

(** X8: for an image of positive width and height below 2^40 on a canvas
    whose width and height are below 2^40 in absolute value, the calculator
    returns a transformation, and its zoom is positive exactly when the
    canvas is wider than the side margin and higher than the side margin
    plus the bottom margin; on a smaller canvas the zoom is zero or negative
    and no error is raised. *)
Theorem zoom_positive_iff_canvas_exceeds_margins
    (w : World) (image_path : string) (vi : VideoInfo) (iw ih : Z) :
  image_size w image_path = Ok (iw, ih) ->
  0 < iw < 2 ^ 40 -> 0 < ih < 2 ^ 40 ->
  - 2 ^ 40 < Width vi < 2 ^ 40 -> - 2 ^ 40 < Height vi < 2 ^ 40 ->
  exists z y,
    calculate_image_transformation w image_path vi 320 20
      = Ok (mkTransform (Finite z) (Finite y)) /\
    ((0 < z)%Q <-> 20 < Width vi /\ 20 + 320 < Height vi).
Proof.
  intros S Hw Hh HW HH.
  destruct (zoom_sign iw ih vi Hw Hh HW HH) as (z & y & E & P).
  exists z, y. unfold calculate_image_transformation. rewrite S.
  simpl fst. simpl snd. unfold bind at 1. split; assumption.
Qed.

(** ** Synthesis of the new item *)

(** X9: the image of an image cue is opened and measured for every cue,
    also when the script gives both zoom and y: when the image cannot be read
    the iteration raises that error, and when its width is zero, or its
    height is zero with a width below 2^40 and a canvas width below 2^40 in
    absolute value, it raises ZeroDivisionError, after the cue was
    matched. *)
Theorem image_cue_needs_measurable_image
    (w : World) (root : string) (vi : VideoInfo) (layer : Z)
    (spec : ItemSpec) (image : string) (vs rest : list VoiceItem)
    (s e : VoiceItem) :
  match_cue spec vs = Ok (s, e, rest) ->
  (forall err, image_size w image = Raise err ->
     align_one w root vi layer (ImageSpec spec image) vs = Raise err) /\
  (forall iw ih, image_size w image = Ok (iw, ih) ->
     iw = 0 \/ (ih = 0 /\ 0 < iw < 2 ^ 40 /\ - 2 ^ 40 < Width vi < 2 ^ 40) ->
     align_one w root vi layer (ImageSpec spec image) vs
     = Raise ZeroDivisionError).
Proof.
  intros M. split.
  - intros err S. unfold align_one. simpl. rewrite M. simpl.
    unfold calculate_image_transformation. rewrite S. reflexivity.
  - intros iw ih S Z0. unfold align_one. simpl. rewrite M. simpl.
    rewrite (proj2 (calculate_of_empty_size w image vi 320 20 iw ih S
                      ltac:(lia)) ltac:(lia) ltac:(lia)).
    reflexivity.
Qed.

(** Without the bound on the canvas the error can be another one: for an
    image of 800x0 on a canvas 2^1100 wide, the width division of line 124
    raises OverflowError before line 125 divides by zero. *)
Lemma empty_height_on_vast_canvas :
  image_size demo_world "flat.png" = Ok (800, 0) /\
  calculate_image_transformation demo_world "flat.png" vast_canvas 320 20
  = Raise OverflowError.
Proof. split; [reflexivity | vm_compute; reflexivity]. Qed.


(** X11: in the item of a text cue, a zoom, y or font size that is absent
    or 0 in the script leaves the default (Zoom 100, Y 0, FontSize 48); any
    other value becomes the constant animation of that value.  No image is
    read for a text cue. *)
Theorem text_item_animations
    (w : World) (root : string) (vi : VideoInfo) (layer : Z)
    (spec : ItemSpec) (t : string) (font_size : option Q) (s e : VoiceItem) :
  let or_const (o : option Q) (d : Animation) :=
    match o with
    | Some x => if Qeq_bool x 0 then d else const x
    | None => d
    end in
  exists b,
    synthesize w root vi layer (TextSpec spec t font_size) s e
    = Ok (TextItem b (or_const font_size (const 48)) t) /\
    Zoom b = or_const (zoom spec) (const 100) /\
    Y b = or_const (y spec) Animation_default.
Proof.
  intros or_const. eexists. split; [|split].
  - simpl. unfold TextItem_from_spec, truthy, or_const.
    destruct font_size as [f|]; [destruct (Qeq_bool f 0)|]; reflexivity.
  - simpl. unfold truthy, or_const.
    destruct (zoom spec) as [z|]; [destruct (Qeq_bool z 0)|]; reflexivity.
  - simpl. unfold truthy, or_const.
    destruct (y spec) as [z|]; [destruct (Qeq_bool z 0)|]; reflexivity.
Qed.

(** ** Layers *)

Lemma shifted_layer_value (layer : Z) (x : Item) :
  Layer (item_base (entry_item (shift_layer layer (Model x))))
  = if Layer (item_base x) >=? layer
    then Layer (item_base x) + 1 else Layer (item_base x).
Proof.
  unfold shift_layer.
  destruct (Layer (item_base x) >=? layer); simpl; [|reflexivity].
  now destruct x.
Qed.

(** X12: the layer shift of lines 53-55 leaves no existing item on the
    insertion layer: an item below it keeps its layer, an item on or above it
    moves up by one, the order of the layers of any two items is kept, and
    frame, length and kind of the item do not change. *)
Theorem layer_shift_frees_the_layer (layer : Z) (i j : Item) :
  let shifted x := entry_item (shift_layer layer (Model x)) in
  Layer (item_base (shifted i)) <> layer /\
  (Layer (item_base i) < layer ->
     Layer (item_base (shifted i)) = Layer (item_base i)) /\
  (layer <= Layer (item_base i) ->
     Layer (item_base (shifted i)) = Layer (item_base i) + 1) /\
  (Layer (item_base i) < Layer (item_base j) ->
     Layer (item_base (shifted i)) < Layer (item_base (shifted j))) /\
  Frame (item_base (shifted i)) = Frame (item_base i) /\
  Length (item_base (shifted i)) = Length (item_base i) /\
  item_type (shifted i) = item_type i.
Proof.
  intros shifted.
  assert (B : forall x b, item_base (with_item_base x b) = b)
    by (intros [] ?; reflexivity).
  assert (T : forall x b, item_type (with_item_base x b) = item_type x)
    by (intros [] ?; reflexivity).
  assert (L : forall x,
             Layer (item_base (shifted x))
             = if Layer (item_base x) >=? layer
               then Layer (item_base x) + 1 else Layer (item_base x)).
  { intros x. apply shifted_layer_value. }
  repeat split.
  - rewrite L. destruct (Z.geb_spec (Layer (item_base i)) layer); lia.
  - intros H. rewrite L. destruct (Z.geb_spec (Layer (item_base i)) layer); lia.
  - intros H. rewrite L. destruct (Z.geb_spec (Layer (item_base i)) layer); lia.
  - intros H. rewrite !L.
    destruct (Z.geb_spec (Layer (item_base i)) layer),
             (Z.geb_spec (Layer (item_base j)) layer); lia.
  - unfold shifted, shift_layer.
    destruct (Layer (item_base i) >=? layer); simpl; [|reflexivity].
    now rewrite B.
  - unfold shifted, shift_layer.
    destruct (Layer (item_base i) >=? layer); simpl; [|reflexivity].
    now rewrite B.
  - unfold shifted, shift_layer.
    destruct (Layer (item_base i) >=? layer); simpl; [|reflexivity].
    apply T.
Qed.

(** X13: the voice items that the alignment works on are those of the
    project, in the same order and with the same character, text, frame and
    length: the layer shift changes none of these. *)
Theorem layer_shift_keeps_voice_items (layer : Z) (items : list entry) :
  map (fun v => (CharacterName v, Serif v, Frame (voice_base v),
                 Length (voice_base v)))
      (voice_items_of (map (shift_layer layer) items))
  = map (fun v => (CharacterName v, Serif v, Frame (voice_base v),
                   Length (voice_base v)))
        (voice_items_of items).
Proof.
  induction items as [|[i|i] items IH]; [reflexivity| |].
  - cbn [map]. unfold shift_layer at 1.
    destruct (Layer (item_base i) >=? layer); destruct i as [| | | |v];
      cbn [with_item_base voice_items_of map]; try assumption;
      rewrite IH; reflexivity.
  - cbn [map shift_layer voice_items_of]. assumption.
Qed.

(** ** The alignment loop, further *)

Lemma align_one_item w root vi layer cur vs item rest :
  align_one w root vi layer cur vs = Ok (item, rest) ->
  exists s e,
    match_cue (base_of cur) vs = Ok (s, e, rest) /\
    Layer (item_base item) = layer /\
    Frame (item_base item) = Frame (voice_base s) /\
    Length (item_base item)
    = Frame (voice_base e) + Length (voice_base e) - Frame (voice_base s).
Proof.
  unfold align_one, bind. intros E.
  destruct (match_cue (base_of cur) vs) as [[[s e] r]|] eqn:M; [|discriminate].
  destruct (synthesize w root vi layer cur s e) as [it|] eqn:S; [|discriminate].
  injection E as -> ->. exists s, e. split; [reflexivity|].
  exact (from_spec_frame_length _ _ _ _ _ _ _ _ S).
Qed.

Lemma align_inv w root vi layer cur specs vs items :
  align w root vi layer (cur :: specs) vs = Ok items ->
  vs = [] /\ items = [] \/
  exists item rest more,
    vs <> [] /\
    align_one w root vi layer cur vs = Ok (item, rest) /\
    align w root vi layer specs rest = Ok more /\
    items = item :: more.
Proof.
  destruct vs as [|v vs]; [intros E; injection E as <-; now left|].
  rewrite align_cons by discriminate. unfold bind.
  destruct (align_one w root vi layer cur (v :: vs)) as [[item rest]|] eqn:A;
    [|discriminate].
  simpl. destruct (align w root vi layer specs rest) as [more|] eqn:R;
    [|discriminate].
  intros E. injection E as <-. right. exists item, rest, more.
  repeat split; auto. discriminate.
Qed.

Lemma align_layer_and_count
    (w : World) (root : string) (vi : VideoInfo) (layer : Z)
    (item_specs : list Spec) (voice_items : list VoiceItem)
    (items : list Item) :
  align w root vi layer item_specs voice_items = Ok items ->
  Forall (fun i => Layer (item_base i) = layer) items /\
  (List.length items <= List.length item_specs)%nat /\
  (List.length items <= List.length voice_items)%nat.
Proof.
  revert voice_items items.
  induction item_specs as [|cur specs IH]; intros vs items E.
  - simpl in E. injection E as <-. repeat split; simpl; auto; lia.
  - destruct (align_inv _ _ _ _ _ _ _ _ E)
      as [[-> ->] | (item & rest & more & Hne & A & R & ->)].
    + repeat split; simpl; auto; lia.
    + destruct (IH _ _ R) as (L & N1 & N2).
      destruct (align_one_item _ _ _ _ _ _ _ _ A) as (s & e & _ & Li & _).
      destruct (align_one_suffix _ _ _ _ _ _ _ _ A) as (k & Hk & ->).
      repeat split.
      * constructor; assumption.
      * simpl. lia.
      * rewrite length_app. destruct k; [congruence|]. simpl. lia.
Qed.

(** X14: when the loop ends without an error, every item it made is on
    the insertion layer, and there are at most as many items as cues and at
    most as many as voice items, since every cue takes at least one voice
    item off the queue. *)
Theorem new_items_layer_and_number
    (w : World) (root : string) (vi : VideoInfo) (layer : Z)
    (item_specs : list Spec) (voice_items : list VoiceItem)
    (items : list Item) :
  align w root vi layer item_specs voice_items = Ok items ->
  Forall (fun i => Layer (item_base i) = layer) items /\
  (List.length items <= List.length item_specs)%nat /\
  (List.length items <= List.length voice_items)%nat.
Proof. apply align_layer_and_count. Qed.

Lemma sorted_suffix (k l : list VoiceItem) :
  StronglySorted frame_le (k ++ l) -> StronglySorted frame_le l.
Proof.
  induction k as [|a k IH]; simpl; [auto|].
  intros S. apply StronglySorted_inv in S. tauto.
Qed.

Lemma match_cue_sorted spec vs s e rest :
  StronglySorted frame_le vs ->
  match_cue spec vs = Ok (s, e, rest) ->
  frame_le s e /\ In s vs /\ In e vs /\
  Forall (frame_le s) rest /\ StronglySorted frame_le rest /\
  (forall v, In v rest -> In v vs).
Proof.
  intros So M.
  destruct (match_cue_inv _ _ _ _ _ M) as (l1 & l2 & S1 & S2 & ->).
  destruct (scan_suffix _ _ _ S1) as [k1 ->].
  destruct (scan_suffix _ _ _ S2) as [k2 E2].
  pose proof (sorted_suffix _ _ So) as So1.
  apply StronglySorted_inv in So1. destruct So1 as [So1 F1].
  destruct k2 as [|x k2]; simpl in E2.
  - injection E2 as <- <-. repeat split; auto.
    + unfold frame_le. lia.
    + apply in_or_app. right. now left.
    + apply in_or_app. right. now left.
    + intros v Hv. apply in_or_app. right. now right.
  - injection E2 as <- ->.
    rewrite Forall_app in F1. destruct F1 as [_ F1].
    apply Forall_inv in F1 as Fe. apply Forall_inv_tail in F1.
    apply sorted_suffix in So1. apply StronglySorted_inv in So1.
    repeat split; try tauto.
    + apply in_or_app. right. now left.
    + apply in_or_app. right. right. apply in_or_app. right. now left.
    + intros v Hv. apply in_or_app. right. right. apply in_or_app.
      right. now right.
Qed.

Lemma align_sorted w root vi layer specs : forall vs items,
  StronglySorted frame_le vs ->
  Forall (fun v => 0 <= Length (voice_base v)) vs ->
  align w root vi layer specs vs = Ok items ->
  Forall (fun i => 0 <= Length (item_base i)) items /\
  StronglySorted (fun a b => Frame (item_base a) <= Frame (item_base b))
                 items /\
  Forall (fun i => exists v, In v vs /\
                   Frame (item_base i) = Frame (voice_base v)) items.
Proof.
  induction specs as [|cur specs IH]; intros vs items So Pos E.
  - simpl in E. injection E as <-. repeat split; constructor.
  - destruct (align_inv _ _ _ _ _ _ _ _ E)
      as [[-> ->] | (item & rest & more & Hne & A & R & ->)].
    + repeat split; constructor.
    + destruct (align_one_item _ _ _ _ _ _ _ _ A) as (s & e & M & _ & Fi & Li).
      destruct (match_cue_sorted _ _ _ _ _ So M)
        as (Hse & Hs & He & Fr & Sr & Sub).
      assert (Pr : Forall (fun v => 0 <= Length (voice_base v)) rest).
      { rewrite Forall_forall in *. intros v Hv. apply Pos, Sub, Hv. }
      destruct (IH _ _ Sr Pr R) as (L & Sm & Wm).
      rewrite Forall_forall in Pos. pose proof (Pos e He) as Pe.
      unfold frame_le in Hse.
      repeat split.
      * constructor; [lia | assumption].
      * constructor; [assumption|].
        rewrite Forall_forall in *. intros i Hi.
        destruct (Wm i Hi) as (v & Hv & ->). rewrite Fi.
        exact (Fr v Hv).
      * constructor; [exists s; split; assumption|].
        rewrite Forall_forall in *. intros i Hi.
        destruct (Wm i Hi) as (v & Hv & Ev). exists v. split; auto.
Qed.

(** X15: when the voice items of the project are in ascending frame order
    and none has a negative length, the items that the loop makes have a
    length that is not negative and come out in ascending frame order. *)
Theorem items_follow_the_timeline
    (w : World) (root : string) (vi : VideoInfo) (layer : Z)
    (item_specs : list Spec) (voice_items : list VoiceItem)
    (items : list Item) :
  StronglySorted frame_le voice_items ->
  Forall (fun v => 0 <= Length (voice_base v)) voice_items ->
  align w root vi layer item_specs voice_items = Ok items ->
  Forall (fun i => 0 <= Length (item_base i)) items /\
  StronglySorted (fun a b => Frame (item_base a) <= Frame (item_base b))
                 items.
Proof.
  intros So Pos E. destruct (align_sorted _ _ _ _ _ _ _ So Pos E) as (L & S & _).
  split; assumption.
Qed.

(** X16: when [main] from line 52 on writes a document for a parsed
    project, the alignment loop has ended without an error, and the document
    holds the existing items in their order, layer shifted, followed by
    exactly the items that the loop made, in the order it made them; these
    are all on layer 3, no existing item is on layer 3, the canvas is
    unchanged, one row is printed per item and no error is raised. *)
Theorem written_document_layout
    (w : World) (root : string) (item_specs : list Spec) (project : Project)
    (out out' : string) (doc : Project) :
  Forall is_model (Items (Project_Timeline project)) ->
  written (main_from_layer w root item_specs project out) = Some (out', doc) ->
  exists new_items,
    align w root (Timeline_VideoInfo (Project_Timeline project)) 3 item_specs
      (voice_items_of
         (map (shift_layer 3) (Items (Project_Timeline project))))
    = Ok new_items /\
    out' = out /\
    Items (Project_Timeline doc)
    = (map (shift_layer 3) (Items (Project_Timeline project))
       ++ map Dict new_items)%list /\
    Forall (fun i => Layer (item_base i) = 3) new_items /\
    Forall (fun e => Layer (item_base (entry_item e)) <> 3)
           (map (shift_layer 3) (Items (Project_Timeline project))) /\
    Timeline_VideoInfo (Project_Timeline doc)
    = Timeline_VideoInfo (Project_Timeline project) /\
    raised (main_from_layer w root item_specs project out) = None /\
    List.length (stdout (main_from_layer w root item_specs project out))
    = List.length (Items (Project_Timeline doc)).
Proof.
  intros Mo. unfold main_from_layer.
  destruct (align w root _ 3 item_specs _) as [new_items|] eqn:A;
    [|discriminate].
  simpl. intros E. injection E as <- <-. exists new_items.
  destruct (align_layer_and_count _ _ _ _ _ _ _ A) as (L & _ & _).
  repeat split; auto.
  - rewrite Forall_map. rewrite Forall_forall in *. intros [i|i] Hi.
    + rewrite shifted_layer_value.
      destruct (Z.geb_spec (Layer (item_base i)) 3); lia.
    + destruct (Mo _ Hi).
  - simpl. now rewrite length_map.
Qed.

(** ** [yaml2script] *)

Section ScriptProperties.
Context {py : Python}.

Lemma yaml2script_cons_none l rest :
  script_row l = Ok None -> yaml2script (l :: rest) = yaml2script rest.
Proof. intros E. simpl. rewrite E. now destruct (yaml2script rest). Qed.

Lemma yaml2script_app before rest :
  csv_ending (yaml2script before) = None ->
  yaml2script (before ++ rest)
  = mkCsv (csv_rows (yaml2script before) ++ csv_rows (yaml2script rest))%list
          (csv_ending (yaml2script rest)).
Proof.
  induction before as [|l before IH]; simpl.
  - intros _. now destruct (yaml2script rest).
  - destruct (script_row l) as [row|]; simpl; [|discriminate].
    intros E. rewrite (IH E). simpl. now destruct row.
Qed.

(** X17: [yaml2script] skips every line that is not a mapping (any
    string, a blank entry, a number, a list) and every mapping with the key
    image or text: such a line, put anywhere, changes neither the rows
    written nor the way the run ends. *)
Theorem yaml2script_skips_other_lines (l : line) (before after : list line) :
  (forall m, l = LMap m -> has_key "image" m || has_key "text" m = true) ->
  yaml2script (before ++ l :: after) = yaml2script (before ++ after).
Proof.
  intros Hl.
  assert (R : script_row l = Ok None).
  { destruct l as [| | | | |elems|m]; try reflexivity.
    simpl. now rewrite (Hl m eq_refl). }
  induction before as [|b before IH]; simpl.
  - rewrite R. now destruct (yaml2script after).
  - now rewrite IH.
Qed.

(** X18: a mapping without the keys image and text stops [yaml2script]:
    with AssertionError when it has no entry or more than one, with
    AttributeError when its single message is not a string.  The rows of the
    lines before it have been written, and nothing after it is. *)
Theorem yaml2script_stops_at_odd_mapping
    (before after : list line) (m : list (string * pyval)) :
  csv_ending (yaml2script before) = None ->
  has_key "image" m || has_key "text" m = false ->
  (List.length m <> 1%nat ->
     yaml2script (before ++ LMap m :: after)
     = mkCsv (csv_rows (yaml2script before)) (Some AssertionError)) /\
  (forall name message,
     m = [(name, message)] -> (forall s, message <> PyStr s) ->
     yaml2script (before ++ LMap m :: after)
     = mkCsv (csv_rows (yaml2script before)) (Some AttributeError)).
Proof.
  intros E K. split.
  - intros N. rewrite (yaml2script_app _ _ E). simpl. rewrite K.
    destruct m as [|x [|x' m']]; simpl; try (now rewrite app_nil_r).
    now destruct N.
  - intros name message -> Hm. rewrite (yaml2script_app _ _ E).
    simpl. simpl in K. rewrite K. simpl.
    destruct message; simpl; try (now rewrite app_nil_r).
    now destruct (Hm s).
Qed.

(** X19: for a script of voice lines whose messages are strings,
    [yaml2script] writes one row per line, in order, and the row holds
    exactly the character and the text of the reference that
    [yaml2items] builds from the same line; so a voice item made from the
    row is matched by that reference. *)
Theorem exported_rows_are_the_references (nms : list (string * string)) :
  Forall speaker_name nms ->
  yaml2script (map voice_line nms)
  = mkCsv (map (fun nm => (character (reference_of nm),
                           text (reference_of nm))) nms) None /\
  (forall nm, In nm nms ->
     new_VoiceSpec (fst nm) (PyStr (snd nm)) = Ok (reference_of nm)) /\
  (forall nm b row, In nm nms ->
     script_row (voice_line nm) = Ok (Some row) ->
     matches (reference_of nm) (mkVoiceItem b (fst row) (snd row)) = true).
Proof.
  intros F.
  assert (R : forall nm, speaker_name nm ->
            script_row (voice_line nm)
            = Ok (Some (fst nm, py_strip (snd nm)))).
  { intros nm [I T].
    assert (E1 : String.eqb "image" (fst nm) = false)
      by (apply String.eqb_neq; congruence).
    assert (E2 : String.eqb "text" (fst nm) = false)
      by (apply String.eqb_neq; congruence).
    unfold script_row, voice_line, has_key. cbn [existsb fst].
    rewrite E1, E2. reflexivity. }
  split; [|split].
  - induction F as [|nm nms Hnm _ IH]; [reflexivity|].
    cbn [map yaml2script]. rewrite (R nm Hnm), IH. reflexivity.
  - intros nm _. reflexivity.
  - intros nm b row Hin. rewrite Forall_forall in F.
    rewrite (R nm (F nm Hin)). intros E. injection E as <-.
    unfold matches, reference_of. simpl. now rewrite !String.eqb_refl.
Qed.

End ScriptProperties.

(** ** Witnesses of the further properties *)

(** Witness of X2: the script with two cues. *)
Lemma one_cue_per_marker_witness :
  ending (list_item_specs (py := plain_python) script_two_cues) = None /\
  List.length (emitted (list_item_specs (py := plain_python) script_two_cues))
  = 2%nat.
Proof.
  split; [reflexivity|].
  apply (one_cue_per_marker (py := plain_python) script_two_cues).
  reflexivity.
Defined.

(** Witness of X3: a voice line without message and a string, before the
    script with two cues. *)
Lemma lines_before_first_marker_are_ignored_witness :
  list_item_specs (py := plain_python)
    ([LMap [("reimu", PyNone)]; LScalar (PyStr "hello")] ++ script_two_cues)
  = list_item_specs (py := plain_python) script_two_cues.
Proof.
  apply (lines_before_first_marker_are_ignored (py := plain_python)).
  repeat constructor.
Defined.

(** Witness of X4: a string without the two words, after the third line. *)
Lemma line_without_marker_word_is_ignored_witness :
  list_item_specs (py := plain_python)
    (firstn 3 script_two_cues ++ LScalar (PyStr "hello")
       :: skipn 3 script_two_cues)
  = list_item_specs (py := plain_python)
      (firstn 3 script_two_cues ++ skipn 3 script_two_cues).
Proof.
  apply (line_without_marker_word_is_ignored (py := plain_python)).
  - split; reflexivity.
  - discriminate.
Defined.

(** Witness of X5: a text cue with three voice lines before an image
    marker. *)
Lemma end_reference_is_last_voice_line_witness :
  hd_error (emitted (list_item_specs (py := plain_python)
     (LMap [("text", PyStr "one")]
        :: map voice_line [("reimu", "A"); ("marisa", "B"); ("reimu", "C")]
        ++ LMap [("image", PyStr "a.png")] :: [])))
  = Some (TextSpec (mkItemSpec None None
                      (Some (mkVoiceSpec "reimu" "A"))
                      (Some (mkVoiceSpec "reimu" "C"))) "one" None).
Proof.
  apply (end_reference_is_last_voice_line (py := plain_python)
           [("text", PyStr "one")]
           (TextSpec (mkItemSpec None None None None) "one" None)
           ("reimu", "A") [("marisa", "B"); ("reimu", "C")]
           (LMap [("image", PyStr "a.png")]) []).
  - reflexivity.
  - reflexivity.
  - reflexivity.
  - reflexivity.
  - repeat constructor; discriminate.
  - reflexivity.
Defined.

(** Witness of X6: two markers in a row. *)
Lemma cue_without_voice_line_raises_witness :
  list_item_specs (py := plain_python)
    [LMap [("text", PyStr "one")]; LMap [("image", PyStr "a.png")];
     LMap [("reimu", PyStr "A")]]
  = mkRun [] (Some AssertionError).
Proof.
  apply (cue_without_voice_line_raises (py := plain_python)
           [("text", PyStr "one")]
           (TextSpec (mkItemSpec None None None None) "one" None)
           (LMap [("image", PyStr "a.png")]) [LMap [("reimu", PyStr "A")]]);
    reflexivity.
Defined.

(** Witness of X8: the 800x600 image on the 1920x1080 canvas. *)
Lemma zoom_positive_iff_canvas_exceeds_margins_witness :
  exists z y,
    calculate_image_transformation demo_world "a.png" canvas 320 20
      = Ok (mkTransform (Finite z) (Finite y)) /\
    ((0 < z)%Q <-> 20 < Width canvas /\ 20 + 320 < Height canvas).
Proof.
  apply (zoom_positive_iff_canvas_exceeds_margins demo_world "a.png" canvas
           800 600); [reflexivity | lia | lia | simpl; lia | simpl; lia].
Defined.

(** Witness of X9: an image cue with zoom and y whose image is missing, and
    one whose image has width 0. *)
Lemma image_cue_needs_measurable_image_witness :
  let spec := mkItemSpec (Some 150%Q) (Some (-100)%Q)
                (Some (spec_of vA)) (Some (spec_of vB)) in
  match_cue spec [vA; vB; vC; vD] = Ok (vA, vB, [vC; vD]) /\
  align_one demo_world "." canvas 3 (ImageSpec spec "missing.png")
            [vA; vB; vC; vD]
  = Raise (OSError "missing.png") /\
  align_one demo_world "." canvas 3 (ImageSpec spec "empty.png")
            [vA; vB; vC; vD]
  = Raise ZeroDivisionError.
Proof.
  intros spec.
  assert (M : match_cue spec [vA; vB; vC; vD] = Ok (vA, vB, [vC; vD]))
    by reflexivity.
  split; [exact M|]. split.
  - apply (proj1 (image_cue_needs_measurable_image demo_world "." canvas 3
                    spec "missing.png" _ _ _ _ M)).
    reflexivity.
  - apply (proj2 (image_cue_needs_measurable_image demo_world "." canvas 3
                    spec "empty.png" _ _ _ _ M) 0 600);
      [reflexivity | left; reflexivity].
Defined.


(** Witness of X12: items on layers 3 and 4 with insertion layer 3. *)
Lemma layer_shift_frees_the_layer_witness :
  let on l := ShapeItem (set_Layer (base_at 0 10) l) in
  Layer (item_base (entry_item (shift_layer 3 (Model (on 1))))) = 1 /\
  Layer (item_base (entry_item (shift_layer 3 (Model (on 3))))) = 4 /\
  Layer (item_base (entry_item (shift_layer 3 (Model (on 4))))) = 5.
Proof.
  intros on. split; [|split].
  - apply (layer_shift_frees_the_layer 3 (on 1) (on 3)). simpl. lia.
  - apply (layer_shift_frees_the_layer 3 (on 3) (on 4)). simpl. lia.
  - apply (layer_shift_frees_the_layer 3 (on 4) (on 4)). simpl. lia.
Defined.

(** Witness of X14 and of X15: the two cues on the four voice items. *)
Lemma new_items_layer_and_number_witness :
  exists items,
    align demo_world "." canvas 3
          [text_cue "one" vA vB; text_cue "two" vC vD] [vA; vB; vC; vD]
    = Ok items /\
    Forall (fun i => Layer (item_base i) = 3) items /\
    (List.length items <= 2)%nat /\ (List.length items <= 4)%nat.
Proof.
  eexists. split; [reflexivity|].
  apply (new_items_layer_and_number demo_world "." canvas 3
           [text_cue "one" vA vB; text_cue "two" vC vD] [vA; vB; vC; vD]).
  reflexivity.
Defined.

Lemma items_follow_the_timeline_witness :
  exists items,
    align demo_world "." canvas 3
          [text_cue "one" vA vB; text_cue "two" vC vD] [vA; vB; vC; vD]
    = Ok items /\
    Forall (fun i => 0 <= Length (item_base i)) items /\
    StronglySorted (fun a b => Frame (item_base a) <= Frame (item_base b))
                   items.
Proof.
  eexists. split; [reflexivity|].
  apply (items_follow_the_timeline demo_world "." canvas 3
           [text_cue "one" vA vB; text_cue "two" vC vD] [vA; vB; vC; vD]).
  - repeat constructor; unfold frame_le; simpl; lia.
  - repeat constructor; simpl; lia.
  - reflexivity.
Defined.

(** Witness of X16: the example project and the two cues. *)
Lemma written_document_layout_witness :
  exists doc new_items,
    written (main_from_layer demo_world "."
               [text_cue "one" vA vB; text_cue "two" vC vD]
               demo_project "out.ymmp")
    = Some ("out.ymmp", doc) /\
    align demo_world "." canvas 3
          [text_cue "one" vA vB; text_cue "two" vC vD]
          (voice_items_of
             (map (shift_layer 3) (Items (Project_Timeline demo_project))))
    = Ok new_items /\
    Items (Project_Timeline doc)
    = (map (shift_layer 3) (Items (Project_Timeline demo_project))
       ++ map Dict new_items)%list /\
    Forall (fun i => Layer (item_base i) = 3) new_items.
Proof.
  eexists.
  assert (W : written (main_from_layer demo_world "."
                         [text_cue "one" vA vB; text_cue "two" vC vD]
                         demo_project "out.ymmp")
              = Some ("out.ymmp", _)) by reflexivity.
  destruct (written_document_layout demo_world "." _ demo_project
              "out.ymmp" "out.ymmp" _ (ltac:(repeat constructor)) W)
    as (new_items & A & _ & I & L & _).
  exists new_items. split; [exact W|]. split; [exact A|]. split; assumption.
Defined.

(** Witness of X17: a string with the word text, in the script with two
    cues. *)
Lemma yaml2script_skips_other_lines_witness :
  yaml2script (py := plain_python)
    (firstn 3 script_two_cues ++ LScalar (PyStr "some text")
       :: skipn 3 script_two_cues)
  = yaml2script (py := plain_python)
      (firstn 3 script_two_cues ++ skipn 3 script_two_cues).
Proof.
  apply (yaml2script_skips_other_lines (py := plain_python)).
  discriminate.
Defined.

(** Witness of X18: an empty mapping, and a voice line without message,
    after the script with two cues. *)
Lemma yaml2script_stops_at_odd_mapping_witness :
  yaml2script (py := plain_python) (script_two_cues ++ LMap [] :: [])
  = mkCsv [("reimu", "A"); ("marisa", "B"); ("reimu", "C"); ("marisa", "D")]
          (Some AssertionError) /\
  yaml2script (py := plain_python)
    (script_two_cues ++ LMap [("reimu", PyNone)] :: [])
  = mkCsv [("reimu", "A"); ("marisa", "B"); ("reimu", "C"); ("marisa", "D")]
          (Some AttributeError).
Proof.
  split.
  - apply (proj1 (yaml2script_stops_at_odd_mapping (py := plain_python)
                    script_two_cues [] [] eq_refl eq_refl)).
    discriminate.
  - apply (proj2 (yaml2script_stops_at_odd_mapping (py := plain_python)
                    script_two_cues [] [("reimu", PyNone)] eq_refl eq_refl)
             "reimu" PyNone eq_refl).
    discriminate.
Defined.

(** Witness of X19: two voice lines. *)
Lemma exported_rows_are_the_references_witness :
  yaml2script (py := plain_python)
    (map voice_line [("reimu", "A"); ("marisa", "B")])
  = mkCsv [("reimu", "A"); ("marisa", "B")] None.
Proof.
  apply (exported_rows_are_the_references (py := plain_python)
           [("reimu", "A"); ("marisa", "B")]).
  repeat constructor; discriminate.
Defined.
